(** * Local knowledge-base server: ingestion pipeline and index facade

    A shallow embedding of [llamaindex/kb_mcp_server.py]:
    the text utilities ([_clean_text], [_stable_id]), the HTML sectionizer
    ([html_to_sections]), the chunker ([split_text]) and the four tools
    ([kb_add_text], [kb_add_html], [kb_search], [kb_quote]).

    Python strings are sequences of Unicode code points; they are modelled
    as lists of code points ([list N]).  Libraries the program calls
    (the HTML parser, SHA-1, the vector index, the document store) are
    parameters of the sections that use them. *)

From Stdlib Require Import ZArith String Ascii Lia Decimal DecimalString.
From stdpp Require Import gmap list.

Set Warnings "-register-all".

(** ** Strings *)

Abbreviation str := (list N) (only parsing).

(** An ASCII literal of the source as a sequence of code points. *)
Definition lit (s : string) : str :=
  N_of_ascii <$> list_ascii_of_string s.

(** [str.isspace] for one character, which is also what [\s] matches in a
    [str] pattern and what [str.strip()] removes: the code points whose
    Unicode category is Zs or whose bidirectional class is WS, B or S. *)
Definition isspace (c : N) : bool :=
  ((9 <=? c) && (c <=? 13) || (28 <=? c) && (c <=? 32)
   || (c =? 133) || (c =? 160) || (c =? 5760)
   || (8192 <=? c) && (c <=? 8202)
   || (c =? 8232) || (c =? 8233) || (c =? 8239) || (c =? 8287)
   || (c =? 12288))%N.

Definition space : N := 32%N.
Definition newline : N := 10%N.

Fixpoint drop_while {A} (p : A → bool) (l : list A) : list A :=
  match l with
  | [] => []
  | x :: r => if p x then drop_while p r else l
  end.

(** [xs] with its longest suffix satisfying [p] removed. *)
Definition drop_while_end {A} (p : A → bool) (l : list A) : list A :=
  rev (drop_while p (rev l)).

Definition lstrip (s : str) : str := drop_while isspace s.
Definition rstrip (s : str) : str := drop_while_end isspace s.

(** [s.strip()] *)
Definition strip (s : str) : str := rstrip (lstrip s).

(** [re.sub(r"\s+", " ", s)]: scanning left to right, each maximal run of
    whitespace is replaced by one space.  [in_run] tells that the previous
    character belonged to the run being replaced. *)
Fixpoint re_sub_spaces (in_run : bool) (s : str) : str :=
  match s with
  | [] => []
  | c :: r =>
      if isspace c
      then (if in_run then re_sub_spaces true r
            else space :: re_sub_spaces true r)
      else c :: re_sub_spaces false r
  end.

(** [_clean_text] *)
Definition _clean_text (s : str) : str :=
  strip (re_sub_spaces false s).

(** [sep.join(parts)] *)
Fixpoint join (sep : str) (parts : list str) : str :=
  match parts with
  | [] => []
  | [p] => p
  | p :: ps => p ++ sep ++ join sep ps
  end.

(** A string is truthy when it is not empty. *)
Definition nonempty (s : str) : bool :=
  match s with [] => false | _ => true end.

(** [str(i)] for a non-negative integer. *)
Definition str_of_nat (i : nat) : str :=
  lit (NilEmpty.string_of_uint (Nat.to_uint i)).

(** ** Python slices *)

(** A slice bound [i] brought into [0 .. n]: a negative bound counts from
    the end, and bounds outside the sequence are clamped. *)
Definition slice_bound (n i : Z) : Z :=
  if (i <? 0)%Z then Z.max 0 (i + n) else Z.min i n.

(** [l[a:b]] *)
Definition slice {A} (l : list A) (a b : Z) : list A :=
  let n := Z.of_nat (length l) in
  let lo := slice_bound n a in
  let hi := slice_bound n b in
  take (Z.to_nat (hi - lo)) (drop (Z.to_nat lo) l).

Definition len {A} (l : list A) : Z := Z.of_nat (length l).

(** ** Stable identifiers *)

Section StableId.

(** [str.encode("utf-8")] and the hexadecimal SHA-1 digest of a byte
    sequence, both from the Python library. *)
Variable encode_utf8 : str → list N.
Variable sha1_hexdigest : list N → str.

(** [_stable_id]: every part is fed to the hash, followed by a
    NUL byte. *)
Definition _stable_id (parts : list str) : str :=
  sha1_hexdigest (flat_map (λ p, encode_utf8 p ++ [0%N]) parts).

End StableId.

(** ** The document tree *)

(** The tree BeautifulSoup hands back: elements and the text strings
    between them.  Strings that [get_text] leaves out (comments,
    declarations) and that no selector matches are not represented. *)
Inductive dom :=
| Text (s : str)
| Elem (name : str) (children : list dom).

Definition node_name (n : dom) : str :=
  match n with Text _ => [] | Elem nm _ => nm end.

(** ASCII lower case, enough for element names. *)
Definition lower_char (c : N) : N :=
  if ((65 <=? c) && (c <=? 90))%N then (c + 32)%N else c.

Definition lower (s : str) : str := lower_char <$> s.

(** Text strings below a dom, in document order. *)
Fixpoint all_strings (n : dom) : list str :=
  match n with
  | Text s => [s]
  | Elem _ cs => flat_map all_strings cs
  end.

(** [el.get_text(sep, strip=True)]: the stripped strings that are not
    empty, joined by [sep]. *)
Definition get_text (sep : str) (n : dom) : str :=
  join sep (filter (λ s, nonempty s = true) (strip <$> all_strings n)).

(** Everything below a dom, in document order. *)
Fixpoint descendants (n : dom) : list dom :=
  match n with
  | Text _ => []
  | Elem _ cs => flat_map (λ c, c :: descendants c) cs
  end.

(** Whether an element matches a selector that lists element names. *)
Definition matches (names : list str) (n : dom) : bool :=
  match n with
  | Text _ => false
  | Elem nm _ => bool_decide (lower nm ∈ names)
  end.

(** [root.select("a, b, ...")] and [root.select_one(...)] *)
Definition select (names : list str) (root : dom) : list dom :=
  filter (λ n, matches names n = true) (descendants root).

Definition select_one (names : list str) (root : dom) : option dom :=
  head (select names root).

(** [soup.body]: the first element named [body]. *)
Definition soup_body (soup : dom) : option dom :=
  head (filter (λ n, node_name n = lit "body") (descendants soup)).

(** The tree after [tag.decompose()] on every element matching [names]:
    the function returns what is left of one dom. *)
Fixpoint decompose (names : list str) (n : dom) : list dom :=
  match n with
  | Text s => [Text s]
  | Elem nm cs =>
      if bool_decide (lower nm ∈ names) then []
      else [Elem nm (flat_map (decompose names) cs)]
  end.

Definition decompose_below (names : list str) (soup : dom) : dom :=
  match soup with
  | Text s => Text s
  | Elem nm cs => Elem nm (flat_map (decompose names) cs)
  end.

(** ** HTML to sections *)

Record Sec := { heading_path : list str; text : str }.

(** The local variables of [html_to_sections]. *)
Record SecState := {
  heading_stack : list (Z * str);
  sections : list Sec;
  current_lines : list str;
  current_path : list str
}.

Definition flush (st : SecState) : SecState :=
  let text := _clean_text (join [newline] (current_lines st)) in
  {| heading_stack := heading_stack st;
     sections := if nonempty text
                 then sections st ++ [{| heading_path := current_path st;
                                         text := text |}]
                 else sections st;
     current_lines := [];
     current_path := current_path st |}.

Definition append_line (line : str) (st : SecState) : SecState :=
  {| heading_stack := heading_stack st;
     sections := sections st;
     current_lines := current_lines st ++ [line];
     current_path := current_path st |}.

Definition startswith (p s : str) : bool :=
  bool_decide (take (length p) s = p).

(** [int(c)] for a decimal digit.  The elements the loop visits are the
    ones [select] matched, so the second character of a name starting with
    [h] is one of the digits 1 to 6 (lemma [select_heading_level]). *)
Definition int_of_digit (c : N) : Z := (Z.of_N c - 48)%Z.

(** One round of the [for el in root.select(...)] loop. *)
Definition visit (st : SecState) (el : dom) : SecState :=
  let name := lower (node_name el) in
  if startswith (lit "h") name then
    let st := flush st in
    let level := int_of_digit (name !!! 1%nat) in
    let title := _clean_text (get_text [space] el) in
    if negb (nonempty title) then st
    else
      let stack :=
        drop_while_end (λ e, (level <=? e.1)%Z) (heading_stack st)
        ++ [(level, title)] in
      {| heading_stack := stack;
         sections := sections st;
         current_lines := current_lines st;
         current_path := snd <$> stack |}
  else if bool_decide (name = lit "li") then
    let txt := _clean_text (get_text [space] el) in
    if nonempty txt then append_line (lit "- " ++ txt) st else st
  else if bool_decide (name = lit "pre") || bool_decide (name = lit "code") then
    let txt := get_text [newline] el in
    if nonempty txt
    then append_line (lit "```text" ++ [newline] ++ txt
                      ++ [newline] ++ lit "```") st
    else st
  else if bool_decide (name = lit "table") then
    let txt := _clean_text (get_text [space] el) in
    if nonempty txt then append_line (lit "[table] " ++ txt) st else st
  else
    let txt := _clean_text (get_text [space] el) in
    if nonempty txt then append_line txt st else st.

Definition removed_tags : list str :=
  [lit "script"; lit "style"; lit "noscript"; lit "svg"].

Definition block_tags : list str :=
  [lit "h1"; lit "h2"; lit "h3"; lit "h4"; lit "h5"; lit "h6";
   lit "p"; lit "li"; lit "pre"; lit "code"; lit "table"].

Definition initial_state : SecState :=
  {| heading_stack := []; sections := [];
     current_lines := []; current_path := [] |}.

(** [a or b] on optional tags: a tag is always truthy. *)
Definition or_else {A} (a b : option A) : option A :=
  match a with Some _ => a | None => b end.

(** The content root: [main], else [article], else the body, else the
    whole document. *)
Definition content_root (soup : dom) : dom :=
  default soup
    (or_else (select_one [lit "main"] soup)
       (or_else (select_one [lit "article"] soup) (soup_body soup))).

(** Everything of [html_to_sections] after the parse. *)
Definition sections_of_soup (parsed : dom) : list Sec :=
  let soup := decompose_below removed_tags parsed in
  let root := content_root soup in
  let st := foldl visit initial_state (select block_tags root) in
  let st := flush st in
  match sections st with
  | [] =>
      let text := _clean_text (get_text [newline] root) in
      if nonempty text then [{| heading_path := []; text := text |}] else []
  | secs => secs
  end.

Section Sectionizer.

(** [BeautifulSoup(html, "lxml")] *)
Variable parse : str → dom.

Definition html_to_sections (html : str) : list Sec :=
  sections_of_soup (parse html).

End Sectionizer.

(** ** Chunking *)

(** The [while] loop of [split_text].  Python loops need not terminate:
    every test of the loop condition uses one unit of [fuel], and [None]
    means the fuel ran out before the loop was left. *)
Fixpoint split_loop (fuel : nat) (text : str) (max_chars overlap : Z)
    (start : Z) (chunks : list str) : option (list str) :=
  match fuel with
  | O => None
  | S fuel =>
      if (start <? len text)%Z then
        let end_ := Z.min (len text) (start + max_chars) in
        let chunk := strip (slice text start end_) in
        let chunks := if nonempty chunk then chunks ++ [chunk] else chunks in
        if (end_ =? len text)%Z then Some chunks
        else split_loop fuel text max_chars overlap
               (Z.max 0 (end_ - overlap)) chunks
      else Some chunks
  end.

Definition split_text_fuel (fuel : nat) (text : str) (max_chars overlap : Z)
  : option (list str) :=
  if (len text <=? max_chars)%Z then Some [text]
  else split_loop fuel text max_chars overlap 0 [].

(** [split_text]: the loop is entered with more fuel than it can use when
    it terminates (theorem [split_text_fuel_enough]); [None] is a run that
    never returns. *)
Definition split_text (text : str) (max_chars overlap : Z)
  : option (list str) :=
  split_text_fuel (S (length text)) text max_chars overlap.

(** [split_text(text)] with the default [max_chars=2000, overlap=200], for
    which the loop always terminates (lemma [split_text_default_some]). *)
Definition split_text_default (text : str) : list str :=
  default [] (split_text text 2000 200).

(** The window [(start, end)] of a round and the start of the next one. *)
Definition window_end (n max_chars start : Z) : Z :=
  Z.min n (start + max_chars).

Definition next_start (n max_chars overlap start : Z) : Z :=
  Z.max 0 (window_end n max_chars start - overlap).

(** The windows the loop goes through, as a trace of the loop above. *)
Fixpoint split_windows (fuel : nat) (n max_chars overlap start : Z)
  : option (list (Z * Z)) :=
  match fuel with
  | O => None
  | S fuel =>
      if (start <? n)%Z then
        let end_ := window_end n max_chars start in
        if (end_ =? n)%Z then Some [(start, end_)]
        else cons (start, end_) <$>
               split_windows fuel n max_chars overlap
                 (next_start n max_chars overlap start)
      else Some []
  end.

(** ** Metadata values and the index *)

(** JSON-like values of metadata and of tool results.  A float is kept as
    its 64-bit pattern. *)
Inductive value :=
| VNone
| VBool (b : bool)
| VInt (z : Z)
| VFloat (bits : Z)
| VStr (s : str)
| VList (l : list value)
| VDict (d : gmap str value).

(** [Document(text=..., metadata=...)] *)
Record Document := { doc_text : str; doc_metadata : gmap str value }.

(** What the tools act on: the documents handed to [index.insert] so far,
    the documents covered by the last [persist], and the wall clock, whose
    successive readings are [clock 0], [clock 1], ... *)
Record World := {
  inserted : list Document;
  persisted : list Document;
  clock : nat → str;
  ticks : nat
}.

(** State passing. *)
Definition M (A : Type) : Type := World → A * World.

Definition ret {A} (a : A) : M A := λ w, (a, w).

Definition bind {A B} (m : M A) (k : A → M B) : M B :=
  λ w, let '(a, w') := m w in k a w'.

Notation "'let*' x := m 'in' k" := (bind m (λ x, k))
  (at level 10, x name, m at level 100, k at level 200, only parsing).

(** A [for] loop that carries the variables it assigns. *)
Fixpoint for_each {A B} (l : list A) (body : B → A → M B) (acc : B) : M B :=
  match l with
  | [] => ret acc
  | x :: r => let* acc' := body acc x in for_each r body acc'
  end.

(** [_now_iso()]: one reading of the clock. *)
Definition _now_iso : M str :=
  λ w, (clock w (ticks w),
        {| inserted := inserted w; persisted := persisted w;
           clock := clock w; ticks := S (ticks w) |}).

(** [index.insert(doc)] *)
Definition index_insert (doc : Document) : M unit :=
  λ w, (tt, {| inserted := inserted w ++ [doc]; persisted := persisted w;
               clock := clock w; ticks := ticks w |}).

(** [persist(index, persist_dir)] *)
Definition persist : M unit :=
  λ w, (tt, {| inserted := inserted w; persisted := inserted w;
               clock := clock w; ticks := ticks w |}).

(** [if extra_metadata: meta.update(extra_metadata)]: keys of
    [extra_metadata] replace the ones already in [meta]. *)
Definition update_with (extra : option (gmap str value))
    (meta : gmap str value) : gmap str value :=
  match extra with
  | Some e => e ∪ meta
  | None => meta
  end.

(** [enumerate(l)] *)
Definition enumerate {A} (l : list A) : list (nat * A) :=
  imap pair l.

(** ** The tools *)

Definition kb_add_text (source_id text : str)
    (extra_metadata : option (gmap str value)) : M (gmap str value) :=
  let* now := _now_iso in
  let meta : gmap str value :=
    {[ lit "source_id" := VStr source_id; lit "added_at" := VStr now ]} in
  let meta := update_with extra_metadata meta in
  let* _ := index_insert {| doc_text := text; doc_metadata := meta |} in
  let* _ := persist in
  ret {[ lit "ok" := VBool true; lit "source_id" := VStr source_id ]}.

Section Ingestion.

Variable parse : str → dom.
Variable encode_utf8 : str → list N.
Variable sha1_hexdigest : list N → str.

Definition section_id (url : str) (path : list str) (i : nat) : str :=
  _stable_id encode_utf8 sha1_hexdigest
    [url; join (lit " / ") path; str_of_nat i].

(** The dict literal built for one chunk; [page_title or ""] is the title
    when one was given. *)
Definition html_meta (url : str) (page_title : option str)
    (path : list str) (i : nat) (now : str) : gmap str value :=
  {[ lit "url" := VStr url;
     lit "source_id" := VStr url;
     lit "page_title" := VStr (default [] page_title);
     lit "heading_path" := VList (VStr <$> path);
     lit "heading" := VStr (default [] (last path));
     lit "section_id" := VStr (section_id url path i);
     lit "chunk_index" := VInt (Z.of_nat i);
     lit "added_at" := VStr now ]}.

Definition kb_add_html (url html : str) (page_title : option str)
    (extra_metadata : option (gmap str value)) : M (gmap str value) :=
  let sections := html_to_sections parse html in
  let* count := for_each sections (λ count sec,
    let path := heading_path sec in
    for_each (enumerate (split_text_default (text sec))) (λ count ic,
      let* now := _now_iso in
      let meta := html_meta url page_title path ic.1 now in
      let meta := update_with extra_metadata meta in
      let* _ := index_insert {| doc_text := ic.2; doc_metadata := meta |} in
      ret (count + 1)%Z) count) 0%Z in
  let* _ := persist in
  ret {[ lit "ok" := VBool true; lit "url" := VStr url;
         lit "chunks" := VInt count ]}.

End Ingestion.

(** A stored node and a search hit. *)
Record Node := {
  node_id : str;
  content : str;
  metadata : option (gmap str value)
}.

Record NodeWithScore := { node : Node; score : option Z }.

(** [float(x or 0.0)]: [None] and both zeros give [0.0]. *)
Definition float_or_zero (x : option Z) : Z :=
  match x with
  | Some bits => if (bits =? 0)%Z || (bits =? 2 ^ 63)%Z then 0%Z else bits
  | None => 0%Z
  end.

Definition search_hit (n : NodeWithScore) : value :=
  VDict {[ lit "node_id" := VStr (node_id (node n));
           lit "score" := VFloat (float_or_zero (score n));
           lit "text" := VStr (slice (content (node n)) 0 1500);
           lit "metadata" := VDict (default ∅ (metadata (node n))) ]}.

Section Search.

(** [index.as_retriever(similarity_top_k=k).retrieve(query)] *)
Variable retrieve : Z → str → list NodeWithScore.

Definition kb_search (query : str) (top_k : Z) : gmap str value :=
  let nodes := retrieve (Z.max 1 (Z.min top_k 20)) query in
  {[ lit "ok" := VBool true;
     lit "results" := VList (search_hit <$> nodes) ]}.

End Search.

(** Python exceptions of class [Exception], with what [str(e)] gives, and
    the outcome of a call that returns or raises one of them.  (What
    lies outside that class is [raised], further down.) *)
Inductive exn := Exception (message : str).

Definition str_of_exn (e : exn) : str :=
  match e with Exception m => m end.

Inductive outcome (A : Type) :=
| Returns (a : A)
| Raises (e : exn).

Arguments Returns {A} a.
Arguments Raises {A} e.

(** [try: body / except Exception as e: handler(e)] *)
Definition try_except {A} (body : outcome A) (handler : exn → outcome A)
  : outcome A :=
  match body with
  | Returns a => Returns a
  | Raises e => handler e
  end.

Section Quote.

(** [index.storage_context.docstore.get_node(node_id)] *)
Variable get_node : str → outcome Node.

Definition kb_quote (id : str) : outcome (gmap str value) :=
  try_except
    (match get_node id with
     | Returns node =>
         Returns {[ lit "ok" := VBool true;
                    lit "text" := VStr (slice (content node) 0 4000);
                    lit "metadata" := VDict (default ∅ (metadata node)) ]}
     | Raises e => Raises e
     end)
    (λ e, Returns {[ lit "ok" := VBool false;
                     lit "error" := VStr (str_of_exn e) ]}).

End Quote.

(** The document store as the index keeps it: nodes by id, where looking
    up an id that is not there raises [ValueError("doc_id ... not found.")]. *)
Definition docstore_get_node (store : gmap str Node) (id : str)
  : outcome Node :=
  match store !! id with
  | Some n => Returns n
  | None => Raises (Exception (lit "doc_id " ++ id ++ lit " not found."))
  end.

(** What a call can raise in general: an instance of [Exception], or an
    exception whose class derives from [BaseException] only
    ([KeyboardInterrupt], [SystemExit], [GeneratorExit]), given by the
    name of its class.  [except Exception] catches the former alone. *)
Inductive raised :=
| OfException (e : exn)
| BaseOnly (class_name : str).

(** The way a call ends. *)
Inductive completion (A : Type) :=
| Normal (a : A)
| Abrupt (r : raised).

Arguments Normal {A} a.
Arguments Abrupt {A} r.

(** [try: body / except Exception as e: handler(e)], with everything the
    body may raise: an exception outside [Exception] passes through. *)
Definition try_except_Exception {A} (body : completion A)
    (handler : exn → completion A) : completion A :=
  match body with
  | Normal a => Normal a
  | Abrupt (OfException e) => handler e
  | Abrupt (BaseOnly c) => Abrupt (BaseOnly c)
  end.

(** [kb_quote] over a lookup that may raise anything. *)
Definition kb_quote_any (get_node : str → completion Node) (id : str)
  : completion (gmap str value) :=
  try_except_Exception
    (match get_node id with
     | Normal node =>
         Normal {[ lit "ok" := VBool true;
                   lit "text" := VStr (slice (content node) 0 4000);
                   lit "metadata" := VDict (default ∅ (metadata node)) ]}
     | Abrupt r => Abrupt r
     end)
    (λ e, Normal {[ lit "ok" := VBool false;
                    lit "error" := VStr (str_of_exn e) ]}).

(** An outcome within class [Exception], seen as a completion. *)
Definition completion_of {A} (o : outcome A) : completion A :=
  match o with
  | Returns a => Normal a
  | Raises e => Abrupt (OfException e)
  end.

(** ** A reference parser for plain markup

    The theorems below hold for any parser.  To run the sectionizer on
    concrete pages, this is what the lxml tree builder yields on markup
    made of attribute-free, properly nested tags that opens with a
    body-level element: the elements end up under [html] and [body]. *)

Inductive token :=
| TOpen (name : str)
| TClose (name : str)
| TChars (s : str).

Definition chars_token (buf : str) : list token :=
  match buf with [] => [] | _ => [TChars (rev buf)] end.

Definition tag_token (buf : str) : token :=
  match rev buf with
  | 47%N :: name => TClose name
  | name => TOpen name
  end.

(** [buf] holds, in reverse, the characters read since the last delimiter. *)
Fixpoint tokenize (in_tag : bool) (buf : str) (s : str) : list token :=
  match s with
  | [] => if in_tag then [] else chars_token buf
  | c :: r =>
      if in_tag then
        if (c =? 62)%N then tag_token buf :: tokenize false [] r
        else tokenize true (c :: buf) r
      else
        if (c =? 60)%N then chars_token buf ++ tokenize true [] r
        else tokenize false (c :: buf) r
  end.

(** The open elements, innermost first, each with the children read so
    far in reverse. *)
Definition close_top (stack : list (str * list dom)) : list (str * list dom) :=
  match stack with
  | (nm, cs) :: (pn, ps) :: rest => (pn, Elem nm (rev cs) :: ps) :: rest
  | _ => stack
  end.

Definition build (stack : list (str * list dom)) (t : token)
  : list (str * list dom) :=
  match t with
  | TOpen nm => (nm, []) :: stack
  | TClose _ => close_top stack
  | TChars s =>
      match stack with
      | (nm, cs) :: rest => (nm, Text s :: cs) :: rest
      | [] => []
      end
  end.

Fixpoint close_all (fuel : nat) (stack : list (str * list dom)) : dom :=
  match fuel, stack with
  | S fuel, _ :: _ :: _ => close_all fuel (close_top stack)
  | _, (nm, cs) :: _ => Elem nm (rev cs)
  | _, [] => Elem (lit "[document]") []
  end.

Definition parse_plain (html : str) : dom :=
  let stack :=
    foldl build [(lit "body", []); (lit "html", []); (lit "[document]", [])]
      (tokenize false [] html) in
  close_all (length stack) stack.

(** ** Vocabulary of the statements *)

(** The first character, when there is one, is not whitespace. *)
Definition starts_clean (s : str) : Prop :=
  match s with [] => True | c :: _ => isspace c = false end.

(** Every whitespace character is a single space with no whitespace
    right after it. *)
Fixpoint spaced (s : str) : Prop :=
  match s with
  | [] => True
  | c :: r => (isspace c = true → c = space ∧ starts_clean r) ∧ spaced r
  end.

(** The chunks the loop of [split_text] appends for a list of windows. *)
Definition window_chunks (text : str) (ws : list (Z * Z)) : list str :=
  flat_map (λ w, let chunk := strip (slice text w.1 w.2) in
                 if nonempty chunk then [chunk] else []) ws.

(** Position [i] of [text] lies inside an occurrence of [chunk] in [text]. *)
Definition chunk_covers (text chunk : str) (i : nat) : Prop :=
  ∃ o : nat, take (length chunk) (drop o text) = chunk
             ∧ (o ≤ i < o + length chunk)%nat.

Definition covered (text : str) (chunks : list str) (i : nat) : Prop :=
  ∃ chunk, chunk ∈ chunks ∧ chunk_covers text chunk i.

(** The documents a run added to the index. *)
Definition new_docs (before after : World) : list Document :=
  drop (length (inserted before)) (inserted after).

(** The units of a page in the order [kb_add_html] inserts them: heading
    path, chunk index within the section, chunk. *)
Definition units (sections : list Sec) : list (list str * nat * str) :=
  flat_map (λ sec, (λ ic, (heading_path sec, ic.1, ic.2))
                     <$> enumerate (split_text_default (text sec)))
    sections.

Section Units.

Variable encode_utf8 : str → list N.
Variable sha1_hexdigest : list N → str.

(** The document inserted for a unit when the clock reads [now]. *)
Definition unit_doc (url : str) (page_title : option str)
    (extra : option (gmap str value)) (now : str)
    (u : list str * nat * str) : Document :=
  {| doc_text := u.2;
     doc_metadata :=
       update_with extra
         (html_meta encode_utf8 sha1_hexdigest url page_title u.1.1 u.1.2 now) |}.

(** The documents inserted for a list of units, the clock being read once
    per unit from reading number [t] on. *)
Fixpoint docs_from (url : str) (page_title : option str)
    (extra : option (gmap str value)) (clock : nat → str) (t : nat)
    (us : list (list str * nat * str)) : list Document :=
  match us with
  | [] => []
  | u :: r => unit_doc url page_title extra (clock t) u
              :: docs_from url page_title extra clock (S t) r
  end.

End Units.

(** The characters of a string that are not whitespace, in order. *)
Definition letters (s : str) : str :=
  filter (λ c, isspace c = false) s.

(** [piece] occurs in [text] as a contiguous run of characters. *)
Definition occurs_in (piece text : str) : Prop :=
  ∃ before after, text = before ++ piece ++ after.

(** A chunk as the loop of [split_text] appends them: not empty, and
    without whitespace at either end. *)
Definition trimmed (s : str) : Prop :=
  s ≠ [] ∧ starts_clean s ∧ starts_clean (rev s).

(** The bytes [_stable_id] feeds to the hash. *)
Definition hash_input (encode_utf8 : str → list N) (parts : list str)
  : list N :=
  flat_map (λ p, encode_utf8 p ++ [0%N]) parts.

(** A section as [flush] emits it: its text is not empty and is in
    normal form. *)
Definition well_formed_section (sec : Sec) : Prop :=
  text sec ≠ [] ∧ _clean_text (text sec) = text sec.

(** Heading levels grow strictly from the outermost entry of the stack
    to the innermost. *)
Fixpoint nested (stack : list (Z * str)) : Prop :=
  match stack with
  | [] => True
  | e :: r => Forall (λ e', (e.1 < e'.1)%Z) r ∧ nested r
  end.

(** The [section_id] entry stored with a document. *)
Definition stored_section_id (d : Document) : option value :=
  doc_metadata d !! lit "section_id".

(** A heading title as the stack keeps it, a stack of such titles with
    levels 1 to 6, and a heading path of at most six of them. *)
Definition title_ok (t : str) : Prop :=
  t ≠ [] ∧ _clean_text t = t.

Definition stack_ok (stack : list (Z * str)) : Prop :=
  nested stack ∧ Forall (λ e, (1 ≤ e.1 ≤ 6)%Z ∧ title_ok e.2) stack.

Definition path_ok (path : list str) : Prop :=
  (length path ≤ 6)%nat ∧ Forall title_ok path.

(** ** Concrete inputs for the examples *)

(** A state of the sectionizer with the line [x] collected. *)
Definition pending_x : SecState :=
  {| heading_stack := []; sections := [];
     current_lines := [lit "x"]; current_path := [] |}.

(** The tree of [<p>x</p><h1></h1><p>y</p>] and of the same page without
    the empty heading. *)
Definition page_with_empty_heading : dom :=
  Elem (lit "[document]") [Elem (lit "html") [Elem (lit "body")
    [Elem (lit "p") [Text (lit "x")];
     Elem (lit "h1") [];
     Elem (lit "p") [Text (lit "y")]]]].

Definition page_without_heading : dom :=
  Elem (lit "[document]") [Elem (lit "html") [Elem (lit "body")
    [Elem (lit "p") [Text (lit "x")];
     Elem (lit "p") [Text (lit "y")]]]].

(** A small world and stand-ins for the library functions, to run the
    tools on concrete inputs. *)
Definition empty_world : World :=
  {| inserted := []; persisted := []; clock := str_of_nat; ticks := 0 |}.

Definition ascii_bytes (s : str) : list N := s.

Definition length_digest (bytes : list N) : str :=
  str_of_nat (length bytes).

(** A store with one node. *)
Definition sample_store : gmap str Node :=
  {[ lit "n1" := {| node_id := lit "n1"; content := lit "hello world";
                    metadata := Some {[ lit "source_id" := VStr (lit "doc1") ]} |} ]}.

(** A heading stack [A > B > C] with nothing collected, and a body
    holding one [h2] heading. *)
Definition three_deep : SecState :=
  {| heading_stack := [(1%Z, lit "A"); (2%Z, lit "B"); (3%Z, lit "C")];
     sections := []; current_lines := [];
     current_path := [lit "A"; lit "B"; lit "C"] |}.

Definition heading_d : dom := Elem (lit "h2") [Text (lit "D")].

Definition body_with_heading_d : dom := Elem (lit "body") [heading_d].

Definition paragraph_x : dom := Elem (lit "p") [Text (lit "x")].

Ltac key_ne := let H := fresh in intros H; vm_compute in H; discriminate H.

(** ** Facts about stripping and normalisation *)

Lemma drop_while_split {A} (p : A → bool) (l : list A) :
  ∃ pre, l = pre ++ drop_while p l ∧ forallb p pre = true.
Proof.
  induction l as [|x r [pre [E F]]]; simpl.
  - by exists [].
  - destruct (p x) eqn:Px.
    + exists (x :: pre). simpl. rewrite Px, F. split; [by f_equal | done].
    + by exists [].
Qed.

Lemma lstrip_starts_clean s : starts_clean (lstrip s).
Proof.
  unfold lstrip. induction s as [|c r IH]; simpl; [done|].
  destruct (isspace c) eqn:E; [done | by simpl].
Qed.

Lemma lstrip_id s : starts_clean s → lstrip s = s.
Proof. unfold lstrip. destruct s as [|c r]; simpl; [done|]. by intros ->. Qed.

Lemma rstrip_split s :
  ∃ suf, s = rstrip s ++ suf ∧ forallb isspace suf = true.
Proof.
  unfold rstrip, drop_while_end.
  destruct (drop_while_split isspace (rev s)) as [pre [E F]].
  exists (rev pre). split.
  - rewrite <- rev_app_distr, <- E. by rewrite rev_involutive.
  - rewrite forallb_forall in *. intros x Hx. apply F.
    by apply in_rev.
Qed.

Lemma rstrip_ends_clean s : starts_clean (rev (rstrip s)).
Proof.
  unfold rstrip, drop_while_end. rewrite rev_involutive.
  apply lstrip_starts_clean.
Qed.

Lemma rstrip_id s : starts_clean (rev s) → rstrip s = s.
Proof.
  intros H. unfold rstrip, drop_while_end.
  change (drop_while isspace (rev s)) with (lstrip (rev s)).
  rewrite lstrip_id by done. apply rev_involutive.
Qed.

Lemma starts_clean_prefix s t :
  s ≠ [] → starts_clean (s ++ t) → starts_clean s.
Proof. by destruct s. Qed.

Lemma rstrip_starts_clean s : starts_clean s → starts_clean (rstrip s).
Proof.
  intros H. destruct (rstrip_split s) as [suf [E _]].
  destruct (rstrip s) as [|c r] eqn:R; [done|].
  rewrite E in H. by simpl in *.
Qed.

Lemma strip_starts_clean s : starts_clean (strip s).
Proof. apply rstrip_starts_clean, lstrip_starts_clean. Qed.

Lemma strip_ends_clean s : starts_clean (rev (strip s)).
Proof. apply rstrip_ends_clean. Qed.

Lemma strip_id s :
  starts_clean s → starts_clean (rev s) → strip s = s.
Proof.
  intros H1 H2. unfold strip. rewrite lstrip_id by done.
  by apply rstrip_id.
Qed.

Lemma spaced_suffix s t : spaced (s ++ t) → spaced t.
Proof. induction s as [|c r IH]; simpl; [done|]. intros [_ H]. auto. Qed.

Lemma spaced_prefix s t : spaced (s ++ t) → spaced s.
Proof.
  induction s as [|c r IH]; simpl; [done|].
  intros [H1 H2]. split; [|by apply IH].
  intros Hc. destruct (H1 Hc) as [-> Hs]. split; [done|].
  by destruct r.
Qed.

Lemma spaced_strip s : spaced s → spaced (strip s).
Proof.
  intros H. unfold strip.
  destruct (rstrip_split (lstrip s)) as [suf [E _]].
  apply (spaced_prefix _ suf). rewrite <- E.
  destruct (drop_while_split isspace s) as [pre [E' _]].
  apply (spaced_suffix pre). unfold lstrip. by rewrite <- E'.
Qed.

Lemma re_sub_spaces_spaced b s :
  spaced (re_sub_spaces b s) ∧
  (b = true → starts_clean (re_sub_spaces b s)).
Proof.
  revert b. induction s as [|c r IH]; intros b; simpl; [done|].
  destruct (isspace c) eqn:Hc.
  - destruct b.
    + apply IH.
    + split; [|done]. simpl. split; [|apply IH].
      intros _. split; [done|]. by apply IH.
  - split; [|by simpl]. simpl. split; [congruence|apply IH].
Qed.

Lemma re_sub_spaces_starts_clean b s :
  starts_clean s → re_sub_spaces b s = re_sub_spaces false s.
Proof. destruct s as [|c r]; simpl; [done|]. by intros ->. Qed.

Lemma re_sub_spaces_id s : spaced s → re_sub_spaces false s = s.
Proof.
  induction s as [|c r IH]; simpl; [done|].
  intros [H1 H2]. destruct (isspace c) eqn:Hc.
  - destruct (H1 eq_refl) as [-> Hr]. f_equal.
    rewrite re_sub_spaces_starts_clean by done. by apply IH.
  - f_equal. by apply IH.
Qed.

Example clean_text_example :
_clean_text (lit "a " ++ [10; 9]%N ++ lit " b") = lit "a b".
Proof. reflexivity. Qed.

Example clean_text_empty : _clean_text [] = [].
Proof. reflexivity. Qed.

(** C9. The text normalizer [_clean_text] is idempotent: normalising an
    already normalised string changes nothing.  A normalised string has
    no whitespace at either end, and its only whitespace characters are
    single spaces. *)
Theorem clean_text_idempotent (s : str) :
  _clean_text (_clean_text s) = _clean_text s
  ∧ spaced (_clean_text s)
  ∧ starts_clean (_clean_text s)
  ∧ starts_clean (rev (_clean_text s)).
Proof.
  unfold _clean_text.
  set (t := strip (re_sub_spaces false s)).
  assert (Ht : spaced t).
  { apply spaced_strip, (re_sub_spaces_spaced false). }
  split; [|split; [done|split]].
  - rewrite (re_sub_spaces_id t Ht).
    apply strip_id; [apply strip_starts_clean | apply strip_ends_clean].
  - apply strip_starts_clean.
  - apply strip_ends_clean.
Qed.

(** ** Facts about the chunker *)

Section Chunker.

Local Open Scope Z_scope.

Lemma strip_split s :
  ∃ pre suf, s = pre ++ strip s ++ suf
             ∧ forallb isspace pre = true ∧ forallb isspace suf = true.
Proof.
  destruct (drop_while_split isspace s) as [pre [E F]].
  destruct (rstrip_split (lstrip s)) as [suf [E' F']].
  exists pre, suf. split; [|done].
  unfold strip. rewrite <- E'. exact E.
Qed.

Lemma split_loop_windows fuel text max_chars overlap start chunks :
  split_loop fuel text max_chars overlap start chunks =
  (λ ws, chunks ++ window_chunks text ws)
    <$> split_windows fuel (len text) max_chars overlap start.
Proof.
  revert start chunks. induction fuel as [|fuel IH]; intros start chunks;
    simpl; [done|].
  destruct (start <? len text); [|simpl; by rewrite app_nil_r].
  unfold window_end.
  destruct (Z.min (len text) (start + max_chars) =? len text) eqn:E.
  - simpl. rewrite app_nil_r. by destruct (nonempty _); rewrite ?app_nil_r.
  - rewrite IH. unfold next_start, window_end.
    destruct (split_windows fuel _ _ _ _) as [ws|]; simpl; [|done].
    f_equal. destruct (nonempty _); [|done]. by rewrite <- app_assoc.
Qed.

Lemma split_windows_mono fuel fuel' n max_chars overlap start ws :
  (fuel ≤ fuel')%nat →
  split_windows fuel n max_chars overlap start = Some ws →
  split_windows fuel' n max_chars overlap start = Some ws.
Proof.
  revert fuel' start ws. induction fuel as [|fuel IH];
    intros fuel' start ws Hle; simpl; [done|].
  destruct fuel' as [|fuel']; [lia|]. simpl.
  destruct (start <? n); [|done].
  destruct (window_end n max_chars start =? n); [done|].
  destruct (split_windows fuel _ _ _ _) as [ws'|] eqn:E; simpl; [|done].
  intros [= <-]. by rewrite (IH fuel' _ ws') by (done || lia).
Qed.

Lemma split_text_fuel_mono fuel fuel' text max_chars overlap chunks :
  (fuel ≤ fuel')%nat →
  split_text_fuel fuel text max_chars overlap = Some chunks →
  split_text_fuel fuel' text max_chars overlap = Some chunks.
Proof.
  intros Hle. unfold split_text_fuel.
  destruct (len text <=? max_chars); [done|].
  rewrite !split_loop_windows.
  destruct (split_windows fuel _ _ _ _) as [ws|] eqn:E; [|done].
  by rewrite (split_windows_mono fuel fuel' _ _ _ _ ws).
Qed.

Lemma next_start_increases n max_chars overlap start :
  overlap < max_chars → 0 ≤ start →
  window_end n max_chars start ≠ n →
  start < n →
  start < next_start n max_chars overlap start.
Proof. unfold next_start, window_end. lia. Qed.

Lemma split_windows_some fuel n max_chars overlap start :
  overlap < max_chars → 0 ≤ start →
  (Z.to_nat (n - start) < fuel)%nat →
  is_Some (split_windows fuel n max_chars overlap start).
Proof.
  intros Hov. revert start. induction fuel as [|fuel IH];
    intros start H0 Hfuel; simpl; [lia|].
  destruct (start <? n) eqn:Hlt; [|done].
  destruct (window_end n max_chars start =? n) eqn:E; [done|].
  apply Z.ltb_lt in Hlt. apply Z.eqb_neq in E.
  pose proof (next_start_increases n max_chars overlap start Hov H0 E Hlt).
  destruct (IH (next_start n max_chars overlap start)) as [ws ->];
    [lia | lia | done].
Qed.

(** Without [overlap < max_chars] the loop goes round for ever on any
    text longer than [max_chars]. *)
Lemma split_windows_none fuel n max_chars overlap start :
  max_chars ≤ overlap → 0 ≤ start < n → start + max_chars < n →
  split_windows fuel n max_chars overlap start = None.
Proof.
  intros Hov. revert start. induction fuel as [|fuel IH];
    intros start H0 H1; simpl; [done|].
  destruct (start <? n) eqn:Hlt; [|lia].
  destruct (window_end n max_chars start =? n) eqn:E;
    [unfold window_end in E; lia|].
  rewrite IH; [done | |]; unfold next_start, window_end; lia.
Qed.

Lemma split_text_diverges fuel text max_chars overlap :
  max_chars < len text → 0 < len text → max_chars ≤ overlap →
  split_text_fuel fuel text max_chars overlap = None.
Proof.
  intros H1 H2 H3. unfold split_text_fuel.
  destruct (len text <=? max_chars) eqn:E; [lia|].
  rewrite split_loop_windows, split_windows_none; [done|lia..].
Qed.

Lemma split_text_fuel_some text max_chars overlap :
  overlap < max_chars →
  ∃ chunks, ∀ fuel, (length text < fuel)%nat →
    split_text_fuel fuel text max_chars overlap = Some chunks.
Proof.
  intros Hov. unfold split_text_fuel.
  destruct (len text <=? max_chars); [by eexists|].
  destruct (split_windows_some (S (length text)) (len text) max_chars overlap 0)
    as [ws Hws]; [done | done | unfold len; lia |].
  exists (window_chunks text ws). intros fuel Hfuel.
  rewrite split_loop_windows.
  rewrite (split_windows_mono (S (length text)) fuel _ _ _ _ ws); [done|lia|done].
Qed.

(** The fuel [split_text] starts with is enough: a run of the loop that
    ends with some fuel ends with this one, and with the same chunks. *)
Theorem split_text_fuel_enough fuel text max_chars overlap chunks :
  split_text_fuel fuel text max_chars overlap = Some chunks →
  split_text text max_chars overlap = Some chunks.
Proof.
  intros H. unfold split_text.
  destruct (Z.le_gt_cases (len text) max_chars) as [Hle|Hgt].
  { unfold split_text_fuel in *. by destruct (len text <=? max_chars) eqn:E; [|lia]. }
  destruct (Z.le_gt_cases max_chars overlap) as [Hov|Hov].
  - destruct (Z.le_gt_cases (len text) 0) as [Hn|Hn].
    + assert (length text = 0%nat) as Hl by (unfold len in Hn; lia).
      destruct text; [|done]. unfold split_text_fuel in *.
      destruct (len [] <=? max_chars); [done|].
      by destruct fuel.
    + by rewrite split_text_diverges in H by lia.
  - destruct (split_text_fuel_some text max_chars overlap) as [cs Hcs]; [lia|].
    destruct (le_lt_dec fuel (length text)) as [Hf|Hf].
    + apply (split_text_fuel_mono fuel); [lia|done].
    + rewrite Hcs in H by done. rewrite <- H. apply Hcs. lia.
Qed.

Lemma split_text_default_some text :
  split_text text 2000 200 = Some (split_text_default text).
Proof.
  unfold split_text_default.
  destruct (split_text_fuel_some text 2000 200) as [cs Hcs]; [lia|].
  unfold split_text. by rewrite Hcs by lia.
Qed.

(** C5. With [0 <= overlap < max_chars], [split_text] terminates on every
    text: the loop returns with any fuel above [len(text)], the start of
    the window strictly increases from one round to the next, and a round
    whose window ends at [len(text)] is the last one. *)
Theorem split_text_terminates text max_chars overlap :
  0 ≤ overlap < max_chars →
  (∃ chunks, split_text text max_chars overlap = Some chunks
     ∧ ∀ fuel, (length text < fuel)%nat →
         split_text_fuel fuel text max_chars overlap = Some chunks)
  ∧ (∀ fuel start chunks,
       0 ≤ start < len text →
       window_end (len text) max_chars start ≠ len text →
       start < next_start (len text) max_chars overlap start
       ∧ ∃ chunks',
           split_loop (S fuel) text max_chars overlap start chunks
           = split_loop fuel text max_chars overlap
               (next_start (len text) max_chars overlap start) chunks')
  ∧ (∀ fuel start chunks,
       0 ≤ start < len text →
       window_end (len text) max_chars start = len text →
       ∃ chunks',
         split_loop (S fuel) text max_chars overlap start chunks
         = Some chunks').
Proof.
  intros [H0 Hov]. split; [|split].
  - destruct (split_text_fuel_some text max_chars overlap Hov) as [cs Hcs].
    exists cs. split; [|done]. unfold split_text. apply Hcs. lia.
  - intros fuel start chunks Hs He. split.
    + apply next_start_increases; lia.
    + simpl. destruct (start <? len text) eqn:E; [|lia].
      unfold window_end in He.
      destruct (Z.min (len text) (start + max_chars) =? len text) eqn:E';
        [lia|]. by eexists.
  - intros fuel start chunks Hs He. simpl.
    destruct (start <? len text) eqn:E; [|lia].
    unfold window_end in He. rewrite He, Z.eqb_refl. by eexists.
Qed.

Lemma split_text_terminates_witness :
  0 ≤ 3 < 10
  ∧ ∃ chunks, split_text (lit "abcdefghijklmno") 10 3 = Some chunks.
Proof.
  assert (H : 0 ≤ 3 < 10) by lia. split; [exact H|].
  destruct (split_text_terminates (lit "abcdefghijklmno") 10 3 H)
    as [[chunks [Hc _]] _].
  by exists chunks.
Defined.

Lemma slice_inside {A} (l : list A) a b :
  0 ≤ a ≤ b → b ≤ len l →
  slice l a b = take (Z.to_nat (b - a)) (drop (Z.to_nat a) l).
Proof.
  unfold slice, slice_bound, len. intros H1 H2.
  destruct (a <? 0) eqn:Ea; [lia|]. destruct (b <? 0) eqn:Eb; [lia|].
  by rewrite !Z.min_l by lia.
Qed.

Lemma forallb_lookup {A} (p : A → bool) (l : list A) i x :
  forallb p l = true → l !! i = Some x → p x = true.
Proof.
  intros H Hx. rewrite forallb_forall in H. apply H.
  apply list_elem_of_In. by eapply list_elem_of_lookup_2.
Qed.

(** A character that is not whitespace survives the trimming of any
    window that holds it. *)
Lemma strip_covers text s e i c :
  0 ≤ s ≤ e → e ≤ len text → s ≤ Z.of_nat i < e →
  text !! i = Some c → isspace c = false →
  chunk_covers text (strip (slice text s e)) i.
Proof.
  intros Hs He Hi Hc Hsp. rewrite slice_inside by done.
  set (a := Z.to_nat s). set (k := Z.to_nat (e - s)).
  set (W := take k (drop a text)).
  destruct (strip_split W) as [pre [suf [E [Fp Fs]]]].
  assert (HW : W !! (i - a)%nat = Some c).
  { unfold W. rewrite lookup_take_lt by lia. rewrite lookup_drop.
    by replace (a + (i - a))%nat with i by lia. }
  assert (Hlo : (length pre ≤ i - a)%nat).
  { destruct (le_lt_dec (length pre) (i - a)) as [|Hlt]; [done|].
    rewrite E, lookup_app_l in HW by done.
    rewrite (forallb_lookup _ _ _ _ Fp HW) in Hsp. done. }
  assert (Hhi : (i - a < length pre + length (strip W))%nat).
  { destruct (le_lt_dec (length pre + length (strip W)) (i - a)) as [Hge|];
      [|done].
    rewrite E, app_assoc, lookup_app_r in HW by (rewrite length_app; lia).
    rewrite (forallb_lookup _ _ _ _ Fs HW) in Hsp. done. }
  exists (a + length pre)%nat. split; [|lia].
  rewrite <- drop_drop.
  rewrite <- (take_drop k (drop a text)). fold W.
  rewrite E at 2. rewrite <- !app_assoc, drop_app_length.
  by rewrite take_app_length.
Qed.

Lemma split_windows_cover fuel n max_chars overlap start ws :
  0 ≤ overlap < max_chars → 0 ≤ start →
  split_windows fuel n max_chars overlap start = Some ws →
  Forall (λ w, 0 ≤ w.1 ≤ w.2 ∧ w.2 ≤ n) ws
  ∧ ∀ i, start ≤ i < n → ∃ w, w ∈ ws ∧ w.1 ≤ i < w.2.
Proof.
  intros Hov. revert start ws. induction fuel as [|fuel IH];
    intros start ws H0; simpl; [done|].
  destruct (start <? n) eqn:Hlt; [|intros [= <-]; split; [done|lia]].
  apply Z.ltb_lt in Hlt.
  assert (Hw : 0 ≤ start ≤ window_end n max_chars start
               ∧ window_end n max_chars start ≤ n)
    by (unfold window_end; lia).
  destruct (window_end n max_chars start =? n) eqn:E.
  - intros [= <-]. apply Z.eqb_eq in E. split.
    + constructor; [exact Hw | constructor].
    + intros i Hi. exists (start, window_end n max_chars start).
      split; [by left | simpl; lia].
  - apply Z.eqb_neq in E.
    destruct (split_windows fuel _ _ _ _) as [ws'|] eqn:E'; simpl; [|done].
    intros [= <-].
    destruct (IH (next_start n max_chars overlap start) ws') as [F C];
      [unfold next_start; lia | done |].
    split; [constructor; [exact Hw | exact F]|].
    intros i Hi.
    destruct (Z.lt_ge_cases i (window_end n max_chars start)) as [Hin|Hout].
    + exists (start, window_end n max_chars start).
      split; [by left | simpl; lia].
    + destruct (C i) as [w [Hw1 Hw2]]; [unfold next_start; lia|].
      exists w. split; [by right | done].
Qed.

Lemma window_chunks_elem text ws w :
  w ∈ ws → strip (slice text w.1 w.2) ≠ [] →
  strip (slice text w.1 w.2) ∈ window_chunks text ws.
Proof.
  intros Hw Hne. unfold window_chunks. apply list_elem_of_In, in_flat_map.
  exists w. split; [by apply list_elem_of_In|].
  destruct (strip (slice text w.1 w.2)); [done|]. by left.
Qed.

(** C2 (amended). On a text longer than [max_chars], with
    [0 <= overlap < max_chars], [split_text] returns the trimmed windows
    of the loop: every position of the text lies in one of the windows,
    and every character that is not whitespace lies in one of the
    returned chunks.  (Whitespace at the edge of a window is trimmed
    away, and a window of whitespace yields no chunk.) *)
Theorem split_text_covers text max_chars overlap :
  max_chars < len text → 0 ≤ overlap → overlap < max_chars →
  ∃ chunks ws,
    split_text text max_chars overlap = Some chunks
    ∧ chunks = window_chunks text ws
    ∧ ∀ (i : nat) c, text !! i = Some c →
        (∃ w, w ∈ ws ∧ w.1 ≤ Z.of_nat i < w.2)
        ∧ (isspace c = false → covered text chunks i).
Proof.
  intros Hlen H0 Hov.
  destruct (split_windows_some (S (length text)) (len text) max_chars overlap 0)
    as [ws Hws]; [done | done | unfold len; lia |].
  exists (window_chunks text ws), ws. split; [|split; [done|]].
  - unfold split_text, split_text_fuel.
    destruct (len text <=? max_chars) eqn:E; [lia|].
    by rewrite split_loop_windows, Hws.
  - intros i c Hc.
    destruct (split_windows_cover _ _ _ _ _ _ (conj H0 Hov) (Z.le_refl 0) Hws)
      as [F C].
    assert (Hi : 0 ≤ Z.of_nat i < len text).
    { apply lookup_lt_Some in Hc. unfold len. lia. }
    destruct (C _ Hi) as [w [Hw Hiw]]. split; [by exists w|].
    intros Hsp. rewrite Forall_forall in F. destruct (F w Hw) as [B1 B2].
    pose proof (strip_covers text w.1 w.2 i c B1 B2 Hiw Hc Hsp) as Hcov.
    exists (strip (slice text w.1 w.2)). split; [|done].
    apply window_chunks_elem; [done|].
    destruct Hcov as [o [_ Ho]]. intros Heq. rewrite Heq in Ho. simpl in Ho. lia.
Qed.

Lemma split_text_covers_witness :
  (3 < len (lit "ab cd") ∧ 0 ≤ 1 ∧ 1 < 3)
  ∧ ∃ chunks, split_text (lit "ab cd") 3 1 = Some chunks
              ∧ covered (lit "ab cd") chunks 4.
Proof.
  assert (H1 : 3 < len (lit "ab cd")) by (vm_compute; reflexivity).
  assert (H2 : 0 ≤ 1) by lia. assert (H3 : 1 < 3) by lia.
  split; [done|].
  destruct (split_text_covers (lit "ab cd") 3 1 H1 H2 H3)
    as [chunks [ws [E [_ C]]]].
  exists chunks. split; [done|].
  by apply (C 4%nat 100%N).
Defined.

(** C2 as stated fails: the whitespace a window starts or ends with is in
    no chunk.  On ["a"] followed by twenty spaces, with windows of 10 and
    overlap 3, the only chunk is ["a"]; the space at position 15 occurs in
    no returned chunk. *)
Lemma split_text_covers_counterexample :
  ¬ (∀ text max_chars overlap chunks,
       max_chars < len text → 0 ≤ overlap → overlap < max_chars →
       split_text text max_chars overlap = Some chunks →
       ∀ (i : nat) c, text !! i = Some c →
         ∃ chunk, chunk ∈ chunks ∧ c ∈ chunk).
Proof.
  intros H.
  destruct (H (lit "a" ++ replicate 20 space) 10 3 [lit "a"]
              ltac:(vm_compute; reflexivity) ltac:(lia) ltac:(lia)
              ltac:(vm_compute; reflexivity) 15%nat space
              ltac:(vm_compute; reflexivity))
    as [chunk [Hin Hc]].
  apply list_elem_of_singleton in Hin as ->.
  apply list_elem_of_singleton in Hc. discriminate Hc.
Qed.

Example split_text_spec_example :
  split_text (lit "abcdefghijklmno") 10 3
  = Some [lit "abcdefghij"; lit "hijklmno"].
Proof. reflexivity. Qed.

Example split_text_short :
  split_text (lit "short") 2000 200 = Some [lit "short"].
Proof. reflexivity. Qed.

End Chunker.

(** ** Facts about the sectionizer *)

Section SectionizerFacts.

Local Open Scope Z_scope.

(** Among the elements the loop visits, a name that starts with [h] is
    [h1] ... [h6], so [int(name[1])] is defined and is the heading level. *)
Lemma select_heading_level root el :
  el ∈ select block_tags root →
  startswith (lit "h") (lower (node_name el)) = true →
  length (node_name el) = 2%nat
  ∧ 1 ≤ int_of_digit (lower (node_name el) !!! 1%nat) ≤ 6.
Proof.
  unfold select. rewrite list_elem_of_filter. intros [Hm _].
  destruct el as [s|nm cs]; [done|]. simpl in *.
  apply bool_decide_eq_true in Hm.
  assert (Hlen : length nm = length (lower nm))
    by (unfold lower; by rewrite length_fmap).
  rewrite Hlen. clear Hlen.
  unfold block_tags in Hm.
  repeat (apply elem_of_cons in Hm as [-> | Hm]);
    try (intros _; split; [reflexivity | vm_compute; split; discriminate]);
    try (intros Hh; vm_compute in Hh; discriminate Hh).
  by apply elem_of_nil in Hm.
Qed.

(** C3 (amended). A heading whose normalised title is empty still closes
    the section collected so far: the round is exactly a [flush] (the
    section is emitted when it has text, and the collected lines are
    reset).  The heading stack and the current heading path are left as
    they were. *)
Theorem visit_empty_heading st el :
  startswith (lit "h") (lower (node_name el)) = true →
  _clean_text (get_text [space] el) = [] →
  visit st el = flush st
  ∧ heading_stack (visit st el) = heading_stack st
  ∧ current_path (visit st el) = current_path st
  ∧ current_lines (visit st el) = [].
Proof.
  intros Hh Ht. unfold visit. rewrite Hh, Ht. by simpl.
Qed.

Lemma visit_empty_heading_witness :
  (startswith (lit "h") (lower (node_name (Elem (lit "h2") []))) = true
   ∧ _clean_text (get_text [space] (Elem (lit "h2") [])) = [])
  ∧ visit pending_x (Elem (lit "h2") []) = flush pending_x.
Proof.
  assert (H1 : startswith (lit "h") (lower (node_name (Elem (lit "h2") [])))
               = true) by reflexivity.
  assert (H2 : _clean_text (get_text [space] (Elem (lit "h2") [])) = [])
    by reflexivity.
  split; [done|].
  exact (proj1 (visit_empty_heading pending_x (Elem (lit "h2") []) H1 H2)).
Defined.

(** C3 as stated fails: the empty heading is not skipped entirely.  With
    the line ["x"] collected, an empty [h1] emits the section and resets
    the lines; on a page, it cuts the text into two sections. *)
Lemma visit_empty_heading_counterexample :
  ¬ (∀ st el,
       startswith (lit "h") (lower (node_name el)) = true →
       _clean_text (get_text [space] el) = [] →
       sections (visit st el) = sections st
       ∧ current_lines (visit st el) = current_lines st
       ∧ heading_stack (visit st el) = heading_stack st
       ∧ current_path (visit st el) = current_path st)
  ∧ sections_of_soup page_with_empty_heading
    = [ {| heading_path := []; text := lit "x" |};
        {| heading_path := []; text := lit "y" |} ]
  ∧ sections_of_soup page_without_heading
    = [ {| heading_path := []; text := lit "x y" |} ].
Proof.
  split; [|split; reflexivity].
  intros H.
  destruct (H pending_x (Elem (lit "h1") []) eq_refl eq_refl) as [Hs _].
  vm_compute in Hs. discriminate Hs.
Qed.

(** C4. On [<h1>A</h1><p>x</p><h2>B</h2><p>y</p>], which the parser reads
    as these four elements in the body of the document, the sectionizer
    returns two sections: path [A] with text [x], then path [A; B] with
    text [y]. *)
Theorem html_to_sections_nested_headings (parse : str → dom) :
  parse (lit "<h1>A</h1><p>x</p><h2>B</h2><p>y</p>")
  = Elem (lit "[document]") [Elem (lit "html") [Elem (lit "body")
      [Elem (lit "h1") [Text (lit "A")];
       Elem (lit "p") [Text (lit "x")];
       Elem (lit "h2") [Text (lit "B")];
       Elem (lit "p") [Text (lit "y")]]]] →
  html_to_sections parse (lit "<h1>A</h1><p>x</p><h2>B</h2><p>y</p>")
  = [ {| heading_path := [lit "A"]; text := lit "x" |};
      {| heading_path := [lit "A"; lit "B"]; text := lit "y" |} ].
Proof.
  intros H. unfold html_to_sections. rewrite H. reflexivity.
Qed.

Lemma html_to_sections_nested_headings_witness :
  html_to_sections parse_plain (lit "<h1>A</h1><p>x</p><h2>B</h2><p>y</p>")
  = [ {| heading_path := [lit "A"]; text := lit "x" |};
      {| heading_path := [lit "A"; lit "B"]; text := lit "y" |} ].
Proof.
  apply (html_to_sections_nested_headings parse_plain). reflexivity.
Defined.

End SectionizerFacts.

(** ** Facts about ingestion *)

Section IngestionFacts.

Variable parse : str → dom.
Variable encode_utf8 : str → list N.
Variable sha1_hexdigest : list N → str.

Abbreviation section_id' := (section_id encode_utf8 sha1_hexdigest).
Abbreviation html_meta' := (html_meta encode_utf8 sha1_hexdigest).
Abbreviation kb_add_html' := (kb_add_html parse encode_utf8 sha1_hexdigest).
Abbreviation unit_doc' := (unit_doc encode_utf8 sha1_hexdigest).
Abbreviation docs_from' := (docs_from encode_utf8 sha1_hexdigest).

Lemma docs_from_app url pt extra clock t us vs :
  docs_from' url pt extra clock t (us ++ vs)
  = docs_from' url pt extra clock t us
    ++ docs_from' url pt extra clock (t + length us) vs.
Proof.
  revert t. induction us as [|u us IH]; intros t; simpl.
  - by rewrite Nat.add_0_r.
  - rewrite IH. do 3 f_equal. lia.
Qed.

Lemma docs_from_length url pt extra clock t us :
  length (docs_from' url pt extra clock t us) = length us.
Proof. revert t. induction us; intros; simpl; by f_equal. Qed.

(** The inner loop of [kb_add_html] over the numbered chunks of a
    section. *)
Lemma chunk_loop_run url pt extra path (l : list (nat * str)) count w :
  for_each l
    (λ (count : Z) (ic : nat * str),
       let* now := _now_iso in
       let meta := html_meta' url pt path ic.1 now in
       let meta := update_with extra meta in
       let* _ := index_insert {| doc_text := ic.2; doc_metadata := meta |} in
       ret (count + 1)%Z) count w
  = ((count + len l)%Z,
     {| inserted := inserted w
          ++ docs_from' url pt extra (clock w) (ticks w)
               ((λ ic, (path, ic.1, ic.2)) <$> l);
        persisted := persisted w;
        clock := clock w;
        ticks := ticks w + length l |}).
Proof.
  revert count w. induction l as [|[i c] l IH]; intros count w.
  - simpl. unfold ret, len. simpl. rewrite Z.add_0_r, app_nil_r, Nat.add_0_r.
    by destruct w.
  - simpl. unfold bind at 1. unfold bind at 1. unfold bind at 1. simpl.
    rewrite IH. simpl. f_equal; [unfold len; simpl; lia|].
    f_equal; [|lia]. by rewrite <- app_assoc.
Qed.

(** The outer loop. *)
Lemma section_loop_run url pt extra (secs : list Sec) count w :
  for_each secs
    (λ (count : Z) (sec : Sec),
       let path := heading_path sec in
       for_each (enumerate (split_text_default (text sec)))
         (λ (count : Z) (ic : nat * str),
            let* now := _now_iso in
            let meta := html_meta' url pt path ic.1 now in
            let meta := update_with extra meta in
            let* _ := index_insert {| doc_text := ic.2;
                                      doc_metadata := meta |} in
            ret (count + 1)%Z) count) count w
  = ((count + len (units secs))%Z,
     {| inserted := inserted w
          ++ docs_from' url pt extra (clock w) (ticks w) (units secs);
        persisted := persisted w;
        clock := clock w;
        ticks := ticks w + length (units secs) |}).
Proof.
  revert count w. induction secs as [|sec secs IH]; intros count w.
  - simpl. unfold ret, len. simpl. rewrite Z.add_0_r, app_nil_r, Nat.add_0_r.
    by destruct w.
  - simpl. unfold bind at 1. rewrite chunk_loop_run. rewrite IH. simpl.
    rewrite docs_from_app, length_fmap, <- app_assoc.
    f_equal; [unfold len; rewrite length_app, length_fmap; lia|].
    f_equal. rewrite length_app, length_fmap. lia.
Qed.

(** What a run of [kb_add_html] does: one document per unit of the page,
    in order, each with its own reading of the clock, then one
    [persist]. *)
Lemma kb_add_html_run url html pt extra w :
  kb_add_html' url html pt extra w
  = ({[ lit "ok" := VBool true; lit "url" := VStr url;
        lit "chunks" := VInt (len (units (html_to_sections parse html))) ]},
     let docs := docs_from' url pt extra (clock w) (ticks w)
                   (units (html_to_sections parse html)) in
     {| inserted := inserted w ++ docs;
        persisted := inserted w ++ docs;
        clock := clock w;
        ticks := ticks w + length (units (html_to_sections parse html)) |}).
Proof.
  unfold kb_add_html. unfold bind at 1. rewrite section_loop_run. done.
Qed.

Lemma kb_add_html_new_docs url html pt extra w :
  new_docs w (kb_add_html' url html pt extra w).2
  = docs_from' url pt extra (clock w) (ticks w)
      (units (html_to_sections parse html)).
Proof.
  rewrite kb_add_html_run. unfold new_docs. simpl.
  by rewrite drop_app_length.
Qed.

Lemma kb_add_text_new_docs source_id text extra w :
  new_docs w (kb_add_text source_id text extra w).2
  = [ {| doc_text := text;
         doc_metadata :=
           update_with extra
             {[ lit "source_id" := VStr source_id;
                lit "added_at" := VStr (clock w (ticks w)) ]} |} ].
Proof.
  unfold new_docs, kb_add_text, bind. simpl. by rewrite drop_app_length.
Qed.

(** The [section_id] entry of the metadata of a unit. *)
Lemma unit_doc_section_id url pt extra now u :
  doc_metadata (unit_doc' url pt extra now u) !! lit "section_id"
  = match extra ≫= (.!! lit "section_id") with
    | Some v => Some v
    | None => Some (VStr (section_id' url u.1.1 u.1.2))
    end.
Proof.
  unfold unit_doc, html_meta. simpl.
  assert (Hbase :
    (html_meta' url pt u.1.1 u.1.2 now) !! lit "section_id"
    = Some (VStr (section_id' url u.1.1 u.1.2))).
  { unfold html_meta. repeat (rewrite lookup_insert_ne by key_ne).
    by rewrite lookup_insert_eq. }
  unfold html_meta in Hbase.
  destruct extra as [e|]; simpl; [|exact Hbase].
  rewrite lookup_union. destruct (e !! lit "section_id") as [v|]; simpl.
  - by rewrite Hbase.
  - by rewrite Hbase.
Qed.

Lemma docs_from_section_ids url pt extra clock t us :
  (λ d, doc_metadata d !! lit "section_id")
    <$> docs_from' url pt extra clock t us
  = (λ u, match extra ≫= (.!! lit "section_id") with
          | Some v => Some v
          | None => Some (VStr (section_id' url u.1.1 u.1.2))
          end) <$> us.
Proof.
  revert t. induction us as [|u us IH]; intros t; [done|].
  cbn [docs_from]. rewrite !fmap_cons. by rewrite IH, unit_doc_section_id.
Qed.

(** C1 (amended). Two runs of [kb_add_html] on the same url, page, title
    and extra metadata store the same sequence of [section_id] values,
    whatever the clock reads and whatever the index held before.  Each
    value is the stable id of the url, the heading path joined by [" / "]
    and the chunk index as a string, unless the extra metadata has a
    [section_id] key of its own, whose value is then the one stored. *)
Theorem kb_add_html_section_ids url html pt extra w1 w2 :
  let ids w :=
    (λ d, doc_metadata d !! lit "section_id")
      <$> new_docs w (kb_add_html' url html pt extra w).2 in
  ids w1 = ids w2
  ∧ ids w1
    = (λ u, match extra ≫= (.!! lit "section_id") with
            | Some v => Some v
            | None => Some (VStr (_stable_id encode_utf8 sha1_hexdigest
                                    [url; join (lit " / ") u.1.1;
                                     str_of_nat u.1.2]))
            end) <$> units (html_to_sections parse html).
Proof.
  simpl. rewrite !kb_add_html_new_docs, !docs_from_section_ids. done.
Qed.

(** Keys of the extra metadata win over the computed ones. *)
Lemma update_with_lookup e meta k v :
  e !! k = Some v → update_with (Some e) meta !! k = Some v.
Proof. intros H. simpl. by apply lookup_union_Some_l. Qed.

Lemma docs_from_elem url pt extra clock t us d :
  d ∈ docs_from' url pt extra clock t us →
  ∃ now u, d = unit_doc' url pt extra now u.
Proof.
  revert t. induction us as [|u us IH]; intros t; simpl.
  - by intros ?%elem_of_nil.
  - intros [->|H]%elem_of_cons; [by eexists _, _ | by eapply IH].
Qed.

Lemma docs_from_per_unit url pt extra clock t us :
  Forall2 (λ u d, ∃ now, d = unit_doc' url pt extra now u)
    us (docs_from' url pt extra clock t us).
Proof.
  revert t. induction us as [|u us IH]; intros t; simpl; constructor.
  - by eexists.
  - apply IH.
Qed.

(** C8. In [kb_add_text] and in [kb_add_html], a key of the extra
    metadata keeps the caller's value in every document handed to the
    index, also when the key is one of the computed fields.
    [kb_add_text] stores one document, with the text given;
    [kb_add_html] stores one document for every chunk of every section,
    in order, with the chunk as its text; each of these documents
    carries the caller's value under the key. *)
Theorem extra_metadata_wins (e : gmap str value) k v :
  e !! k = Some v →
  (∀ source_id text w,
     ∃ d, new_docs w (kb_add_text source_id text (Some e) w).2 = [d]
          ∧ doc_text d = text
          ∧ doc_metadata d !! k = Some v)
  ∧ (∀ url html pt w,
       Forall2 (λ u d, doc_text d = u.2 ∧ doc_metadata d !! k = Some v)
         (units (html_to_sections parse html))
         (new_docs w (kb_add_html' url html pt (Some e) w).2)).
Proof.
  intros Hk. split.
  - intros source_id text w. rewrite kb_add_text_new_docs.
    eexists. split; [done|]. split; [done|].
    simpl. by apply lookup_union_Some_l.
  - intros url html pt w. rewrite kb_add_html_new_docs.
    eapply Forall2_impl; [apply docs_from_per_unit|].
    intros u d [now ->]. split; [done|].
    unfold unit_doc. simpl. by apply lookup_union_Some_l.
Qed.

End IngestionFacts.

(** C1 as stated fails: with [extra_metadata = {"section_id": 7}] the
    stored [section_id] is the caller's 7, not the stable id. *)
Lemma kb_add_html_section_ids_counterexample :
  ¬ (∀ parse encode_utf8 sha1_hexdigest url html pt extra w,
       (λ d, doc_metadata d !! lit "section_id")
         <$> new_docs w
               (kb_add_html parse encode_utf8 sha1_hexdigest
                  url html pt extra w).2
       = (λ u, Some (VStr (_stable_id encode_utf8 sha1_hexdigest
                             [url; join (lit " / ") u.1.1;
                              str_of_nat u.1.2])))
           <$> units (html_to_sections parse html)).
Proof.
  intros H.
  specialize (H parse_plain ascii_bytes length_digest (lit "u")
                (lit "<h1>A</h1><p>x</p>") None
                (Some {[ lit "section_id" := VInt 7 ]}) empty_world).
  vm_compute in H. discriminate H.
Qed.

Example kb_add_html_override :
  (λ d, doc_metadata d !! lit "section_id")
    <$> new_docs empty_world
          (kb_add_html parse_plain ascii_bytes length_digest (lit "u")
             (lit "<h1>A</h1><p>x</p>") None
             (Some {[ lit "section_id" := VInt 7 ]}) empty_world).2
  = [Some (VInt 7)].
Proof. vm_compute. reflexivity. Qed.

Lemma extra_metadata_wins_witness :
  let e : gmap str value := {[ lit "chunk_index" := VStr (lit "mine") ]} in
  e !! lit "chunk_index" = Some (VStr (lit "mine"))
  ∧ Forall2 (λ u d, doc_text d = u.2
                    ∧ doc_metadata d !! lit "chunk_index"
                      = Some (VStr (lit "mine")))
      [([lit "A"], 0%nat, lit "x")]
      (new_docs empty_world
         (kb_add_html parse_plain ascii_bytes length_digest (lit "u")
            (lit "<h1>A</h1><p>x</p>") None (Some e) empty_world).2).
Proof.
  intros e.
  assert (H : e !! lit "chunk_index" = Some (VStr (lit "mine")))
    by (vm_compute; reflexivity).
  split; [exact H|].
  exact (proj2 (extra_metadata_wins parse_plain ascii_bytes length_digest
                  e _ _ H) (lit "u") (lit "<h1>A</h1><p>x</p>") None
           empty_world).
Defined.

(** ** Facts about search and quote *)

Section FacadeFacts.

Local Open Scope Z_scope.

(** C6. [kb_search] asks the retriever for [top_k] clamped into
    [1 .. 20]: 1 when [top_k] is zero or negative, 20 when it is larger
    than 20, [top_k] itself otherwise; the results are the retriever's
    answer to that request. *)
Theorem kb_search_clamps (retrieve : Z → str → list NodeWithScore)
    (query : str) (top_k : Z) :
  let k := if top_k <? 1 then 1 else if 20 <? top_k then 20 else top_k in
  1 ≤ k ≤ 20
  ∧ kb_search retrieve query top_k
    = {[ lit "ok" := VBool true;
         lit "results" := VList (search_hit <$> retrieve k query) ]}.
Proof.
  simpl. unfold kb_search.
  destruct (top_k <? 1) eqn:E1; [|destruct (20 <? top_k) eqn:E2].
  - split; [lia|]. by replace (Z.max 1 (Z.min top_k 20)) with 1 by lia.
  - split; [lia|]. by replace (Z.max 1 (Z.min top_k 20)) with 20 by lia.
  - split; [lia|]. by replace (Z.max 1 (Z.min top_k 20)) with top_k by lia.
Qed.

Lemma slice_prefix {A} (l : list A) (k : Z) :
  0 ≤ k → slice l 0 k = take (Z.to_nat k) l.
Proof.
  intros Hk. unfold slice, slice_bound.
  change (0 <? 0) with false. cbv iota.
  destruct (k <? 0) eqn:E; [lia|].
  replace (Z.min 0 (Z.of_nat (length l))) with 0 by lia.
  rewrite Z.sub_0_r. change (Z.to_nat 0) with 0%nat. rewrite drop_0.
  destruct (Z.le_gt_cases k (Z.of_nat (length l))) as [H|H].
  - by rewrite Z.min_l by lia.
  - rewrite Z.min_r by lia. rewrite Nat2Z.id.
    by rewrite !take_ge by lia.
Qed.

(** C7. When the document store raises a not-found error with a message
    for an absent id and returns the stored node for a present one,
    [kb_quote] of an absent id returns [{ok: False, error}] with a
    non-empty error, and [kb_quote] of a present id returns [ok: True]
    with the first 4000 characters of the content and the whole
    metadata. *)
Theorem kb_quote_lookup (store : gmap str Node)
    (get_node : str → outcome Node) (id : str) :
  (∀ id, store !! id = None →
         ∃ e, get_node id = Raises e ∧ str_of_exn e ≠ []) →
  (∀ id n, store !! id = Some n → get_node id = Returns n) →
  match store !! id with
  | None =>
      ∃ msg, msg ≠ []
             ∧ kb_quote get_node id
               = Returns {[ lit "ok" := VBool false;
                            lit "error" := VStr msg ]}
  | Some n =>
      ∃ txt, txt = take 4000 (content n) ∧ (length txt ≤ 4000)%nat
             ∧ kb_quote get_node id
               = Returns {[ lit "ok" := VBool true;
                            lit "text" := VStr txt;
                            lit "metadata" :=
                              VDict (default ∅ (metadata n)) ]}
  end.
Proof.
  intros Habsent Hpresent. destruct (store !! id) as [n|] eqn:E.
  - exists (take 4000 (content n)). split; [done|]. split.
    + rewrite length_take. lia.
    + unfold kb_quote. rewrite (Hpresent id n E). simpl.
      by rewrite (slice_prefix _ 4000) by lia.
  - destruct (Habsent id E) as [e [He Hmsg]].
    exists (str_of_exn e). split; [done|].
    unfold kb_quote. by rewrite He.
Qed.

(** On lookups that raise nothing outside class [Exception], the two
    readings of [kb_quote] agree. *)
Lemma kb_quote_any_within_Exception (get_node : str → outcome Node)
    (id : str) :
  kb_quote_any (λ i, completion_of (get_node i)) id
  = completion_of (kb_quote get_node id).
Proof. unfold kb_quote_any, kb_quote. by destruct (get_node id). Qed.

(** C10 (amended). [kb_quote] catches every exception of class
    [Exception] the lookup raises, whatever the failure, and returns
    [{ok: False, error: str(e)}]; when the lookup returns a node the
    result is the [ok: True] mapping.  In both cases the result is a
    mapping with an [ok] entry.  An exception outside class [Exception]
    is not caught: [kb_quote] raises it as it came. *)
Theorem kb_quote_catches_Exception (get_node : str → completion Node)
    (id : str) :
  match get_node id with
  | Normal n =>
      kb_quote_any get_node id
      = Normal {[ lit "ok" := VBool true;
                  lit "text" := VStr (slice (content n) 0 4000);
                  lit "metadata" := VDict (default ∅ (metadata n)) ]}
      ∧ ∃ d, kb_quote_any get_node id = Normal d
             ∧ d !! lit "ok" = Some (VBool true)
  | Abrupt (OfException e) =>
      kb_quote_any get_node id
      = Normal {[ lit "ok" := VBool false;
                  lit "error" := VStr (str_of_exn e) ]}
      ∧ ∃ d, kb_quote_any get_node id = Normal d
             ∧ d !! lit "ok" = Some (VBool false)
  | Abrupt (BaseOnly c) =>
      kb_quote_any get_node id = Abrupt (BaseOnly c)
  end.
Proof.
  unfold kb_quote_any. destruct (get_node id) as [n|[e|c]]; simpl.
  - split; [done|]. eexists. split; [done|]. by rewrite lookup_insert_eq.
  - split; [done|]. eexists. split; [done|]. by rewrite lookup_insert_eq.
  - done.
Qed.

(** C10 as stated fails: [except Exception] does not catch an exception
    outside class [Exception].  When the lookup is interrupted by
    [KeyboardInterrupt], [kb_quote] raises it and returns no mapping. *)
Lemma kb_quote_never_raises_counterexample :
  ¬ (∀ (get_node : str → completion Node) (id : str),
       ∃ d, kb_quote_any get_node id = Normal d)
  ∧ kb_quote_any (λ _, Abrupt (BaseOnly (lit "KeyboardInterrupt")))
      (lit "n1")
    = Abrupt (BaseOnly (lit "KeyboardInterrupt")).
Proof.
  split; [|reflexivity].
  intros H.
  destruct (H (λ _, Abrupt (BaseOnly (lit "KeyboardInterrupt"))) (lit "n1"))
    as [d Hd].
  discriminate Hd.
Qed.

End FacadeFacts.

Lemma docstore_get_node_absent store id :
  store !! id = None →
  ∃ e, docstore_get_node store id = Raises e ∧ str_of_exn e ≠ [].
Proof.
  intros H. unfold docstore_get_node. rewrite H. eexists. split; [done|].
  done.
Qed.

Lemma docstore_get_node_present store id n :
  store !! id = Some n → docstore_get_node store id = Returns n.
Proof. intros H. unfold docstore_get_node. by rewrite H. Qed.

Lemma kb_quote_lookup_witness :
  (∃ msg, msg ≠ []
          ∧ kb_quote (docstore_get_node sample_store) (lit "nonexistent")
            = Returns {[ lit "ok" := VBool false;
                         lit "error" := VStr msg ]})
  ∧ kb_quote (docstore_get_node sample_store) (lit "n1")
    = Returns {[ lit "ok" := VBool true;
                 lit "text" := VStr (lit "hello world");
                 lit "metadata" :=
                   VDict {[ lit "source_id" := VStr (lit "doc1") ]} ]}.
Proof.
  split.
  - exact (kb_quote_lookup sample_store (docstore_get_node sample_store)
             (lit "nonexistent")
             (docstore_get_node_absent sample_store)
             (docstore_get_node_present sample_store)).
  - destruct (kb_quote_lookup sample_store (docstore_get_node sample_store)
                (lit "n1")
                (docstore_get_node_absent sample_store)
                (docstore_get_node_present sample_store))
      as [txt [-> [_ H]]].
    exact H.
Defined.

(** ** More about the text utilities *)

Lemma letters_app s t : letters (s ++ t) = letters s ++ letters t.
Proof. unfold letters. apply filter_app. Qed.

Lemma letters_blank s : forallb isspace s = true → letters s = [].
Proof.
  unfold letters. induction s as [|c r IH]; simpl; [done|].
  intros [Hc Hr]%andb_prop. rewrite filter_cons_False by congruence. auto.
Qed.

Lemma letters_nil_blank s : letters s = [] → forallb isspace s = true.
Proof.
  unfold letters. induction s as [|c r IH]; simpl; [done|].
  destruct (isspace c) eqn:Hc.
  - rewrite filter_cons_False by congruence. auto.
  - by rewrite filter_cons_True by done.
Qed.

Lemma re_sub_spaces_letters b s : letters (re_sub_spaces b s) = letters s.
Proof.
  unfold letters. revert b. induction s as [|c r IH]; intros b; simpl; [done|].
  destruct (isspace c) eqn:Hc.
  - rewrite (filter_cons_False _ c) by congruence.
    destruct b; [apply IH|].
    rewrite filter_cons_False by (by vm_compute). apply IH.
  - rewrite !filter_cons_True by done. by rewrite IH.
Qed.

Lemma re_sub_spaces_length b s :
  (length (re_sub_spaces b s) ≤ length s)%nat.
Proof.
  revert b. induction s as [|c r IH]; intros b; simpl; [done|].
  destruct (isspace c); [destruct b|]; simpl;
    [pose proof (IH true) | pose proof (IH true) | pose proof (IH false)]; lia.
Qed.

Lemma strip_letters s : letters (strip s) = letters s.
Proof.
  destruct (strip_split s) as [pre [suf [E [Fp Fs]]]].
  rewrite E at 2. rewrite !letters_app.
  by rewrite (letters_blank pre), (letters_blank suf), app_nil_r.
Qed.

Lemma strip_length s : (length (strip s) ≤ length s)%nat.
Proof.
  destruct (strip_split s) as [pre [suf [E _]]].
  rewrite E at 2. rewrite !length_app. lia.
Qed.

Lemma clean_text_fixed s : _clean_text (_clean_text s) = _clean_text s.
Proof.
  unfold _clean_text. set (t := strip (re_sub_spaces false s)).
  assert (Ht : spaced t) by apply spaced_strip, (re_sub_spaces_spaced false).
  rewrite (re_sub_spaces_id t Ht).
  apply strip_id; [apply strip_starts_clean | apply strip_ends_clean].
Qed.

(** X1. [_clean_text] keeps every character that is not whitespace, in
    order, adds none, and never makes a string longer. *)
Theorem clean_text_letters (s : str) :
  letters (_clean_text s) = letters s
  ∧ (length (_clean_text s) ≤ length s)%nat.
Proof.
  unfold _clean_text. split.
  - by rewrite strip_letters, re_sub_spaces_letters.
  - etrans; [apply strip_length | apply re_sub_spaces_length].
Qed.

(** X2. [_clean_text] returns the empty string exactly on the strings
    made of whitespace only (the empty string among them). *)
Theorem clean_text_blank (s : str) :
  _clean_text s = [] ↔ forallb isspace s = true.
Proof.
  split.
  - intros H. apply letters_nil_blank.
    unfold _clean_text in H.
    by rewrite <- (re_sub_spaces_letters false), <- strip_letters, H.
  - intros H.
    pose proof (strip_starts_clean (re_sub_spaces false s)) as Hc.
    assert (Hl : letters (_clean_text s) = []).
    { unfold _clean_text. rewrite strip_letters, re_sub_spaces_letters.
      by apply letters_blank. }
    unfold _clean_text in *.
    destruct (strip (re_sub_spaces false s)) as [|c r]; [done|].
    simpl in Hc. unfold letters in Hl.
    by rewrite filter_cons_True in Hl by done.
Qed.

(** ** More about the chunker *)

Section ChunkerMore.

Local Open Scope Z_scope.

Lemma slice_occurs (l : str) a b : occurs_in (slice l a b) l.
Proof.
  unfold slice.
  match goal with
  | |- occurs_in (take ?k (drop ?j _)) _ =>
      exists (take j l), (drop k (drop j l))
  end.
  by rewrite !take_drop.
Qed.

Lemma strip_occurs s : occurs_in (strip s) s.
Proof.
  destruct (strip_split s) as [pre [suf [E _]]]. by exists pre, suf.
Qed.

Lemma occurs_in_trans a b c : occurs_in a b → occurs_in b c → occurs_in a c.
Proof.
  intros [p [q ->]] [p' [q' ->]]. exists (p' ++ p), (q ++ q').
  by rewrite <- !app_assoc.
Qed.

Lemma window_chunks_Forall (P : str → Prop) text ws :
  (∀ w, w ∈ ws → strip (slice text w.1 w.2) ≠ [] →
        P (strip (slice text w.1 w.2))) →
  Forall P (window_chunks text ws).
Proof.
  intros H. apply Forall_forall. intros c Hc.
  apply list_elem_of_In, in_flat_map in Hc as [w [Hw Hin]].
  apply list_elem_of_In in Hw.
  destruct (strip (slice text w.1 w.2)) as [|x r] eqn:E; [done|].
  destruct Hin as [<-|[]]. rewrite <- E. apply H; [done|]. by rewrite E.
Qed.

Lemma split_text_fuel_windows fuel text max_chars overlap chunks :
  split_text_fuel fuel text max_chars overlap = Some chunks →
  (len text ≤ max_chars ∧ chunks = [text])
  ∨ (max_chars < len text
     ∧ ∃ ws, split_windows fuel (len text) max_chars overlap 0 = Some ws
             ∧ chunks = window_chunks text ws).
Proof.
  unfold split_text_fuel. destruct (len text <=? max_chars) eqn:E.
  - intros [= <-]. left. split; [lia|done].
  - rewrite split_loop_windows.
    destruct (split_windows fuel _ _ _ _) as [ws|]; [|done].
    intros [= <-]. right. split; [lia|]. by exists ws.
Qed.

(** X3. Whatever the parameters, every chunk [split_text] returns is a
    contiguous piece of the text: nothing is invented or reordered. *)
Theorem split_text_chunks_occur text max_chars overlap chunks :
  split_text text max_chars overlap = Some chunks →
  Forall (λ chunk, occurs_in chunk text) chunks.
Proof.
  intros H. apply split_text_fuel_windows in H as [[_ ->]|[_ [ws [_ ->]]]].
  - constructor; [|constructor]. by exists [], []; rewrite app_nil_r.
  - apply window_chunks_Forall. intros w _ _.
    eapply occurs_in_trans; [apply strip_occurs | apply slice_occurs].
Qed.

Lemma split_text_chunks_occur_witness :
  split_text (lit "ab  cdef") 4 1 = Some [lit "ab"; lit "cde"; lit "ef"]
  ∧ Forall (λ chunk, occurs_in chunk (lit "ab  cdef"))
      [lit "ab"; lit "cde"; lit "ef"].
Proof.
  assert (H : split_text (lit "ab  cdef") 4 1
              = Some [lit "ab"; lit "cde"; lit "ef"]) by reflexivity.
  split; [exact H|].
  exact (split_text_chunks_occur _ _ _ _ H).
Defined.

(** X4. On a text longer than [max_chars], every chunk is trimmed: it is
    not empty and has no whitespace at either end. *)
Theorem split_text_chunks_trimmed text max_chars overlap chunks :
  max_chars < len text →
  split_text text max_chars overlap = Some chunks →
  Forall trimmed chunks.
Proof.
  intros Hlen H.
  apply split_text_fuel_windows in H as [[Hle _]|[_ [ws [_ ->]]]]; [lia|].
  apply window_chunks_Forall. intros w _ Hne. split; [done|]. split.
  - apply strip_starts_clean.
  - apply strip_ends_clean.
Qed.

Lemma split_text_chunks_trimmed_witness :
  (4 < len (lit "ab  cdef")
   ∧ split_text (lit "ab  cdef") 4 1 = Some [lit "ab"; lit "cde"; lit "ef"])
  ∧ Forall trimmed [lit "ab"; lit "cde"; lit "ef"].
Proof.
  assert (H1 : 4 < len (lit "ab  cdef")) by (vm_compute; reflexivity).
  assert (H2 : split_text (lit "ab  cdef") 4 1
               = Some [lit "ab"; lit "cde"; lit "ef"]) by reflexivity.
  split; [done|].
  exact (split_text_chunks_trimmed _ _ _ _ H1 H2).
Defined.

Lemma split_windows_bounds fuel n max_chars overlap start ws :
  0 ≤ max_chars → 0 ≤ start →
  split_windows fuel n max_chars overlap start = Some ws →
  Forall (λ w, 0 ≤ w.1 ≤ w.2 ∧ w.2 ≤ n ∧ w.2 - w.1 ≤ max_chars) ws.
Proof.
  intros Hm. revert start ws. induction fuel as [|fuel IH];
    intros start ws H0; simpl; [done|].
  destruct (start <? n) eqn:Hlt; [|by intros [= <-]].
  apply Z.ltb_lt in Hlt.
  assert (Hw : 0 ≤ start ≤ window_end n max_chars start
               ∧ window_end n max_chars start ≤ n
               ∧ window_end n max_chars start - start ≤ max_chars)
    by (unfold window_end; lia).
  destruct (window_end n max_chars start =? n).
  - intros [= <-]. constructor; [exact Hw | constructor].
  - destruct (split_windows fuel _ _ _ _) as [ws'|] eqn:E'; simpl; [|done].
    intros [= <-]. constructor; [exact Hw|].
    apply (IH (next_start n max_chars overlap start)); [|done].
    unfold next_start. lia.
Qed.

Lemma slice_length_inside (l : str) a b :
  0 ≤ a ≤ b → b ≤ len l → len (slice l a b) = b - a.
Proof.
  intros H1 H2. rewrite slice_inside by done. unfold len in *.
  rewrite length_take, length_drop. lia.
Qed.

(** X5. With [max_chars >= 0], no chunk is longer than [max_chars]
    characters. *)
Theorem split_text_chunks_bounded text max_chars overlap chunks :
  0 ≤ max_chars →
  split_text text max_chars overlap = Some chunks →
  Forall (λ chunk, len chunk ≤ max_chars) chunks.
Proof.
  intros Hm H.
  apply split_text_fuel_windows in H as [[Hle ->]|[_ [ws [Hws ->]]]].
  - by constructor.
  - pose proof (split_windows_bounds _ _ _ _ _ _ Hm (Z.le_refl 0) Hws) as B.
    rewrite Forall_forall in B.
    apply window_chunks_Forall. intros w Hw _.
    destruct (B w Hw) as [B1 [B2 B3]].
    pose proof (strip_length (slice text w.1 w.2)).
    pose proof (slice_length_inside text w.1 w.2 B1 B2).
    unfold len in *. lia.
Qed.

Lemma split_text_chunks_bounded_witness :
  (0 ≤ 4
   ∧ split_text (lit "ab  cdef") 4 1 = Some [lit "ab"; lit "cde"; lit "ef"])
  ∧ Forall (λ chunk, len chunk ≤ 4) [lit "ab"; lit "cde"; lit "ef"].
Proof.
  assert (H1 : 0 ≤ 4) by lia.
  assert (H2 : split_text (lit "ab  cdef") 4 1
               = Some [lit "ab"; lit "cde"; lit "ef"]) by reflexivity.
  split; [done|].
  exact (split_text_chunks_bounded _ _ _ _ H1 H2).
Defined.

Lemma split_windows_head fuel n max_chars overlap start ws :
  split_windows fuel n max_chars overlap start = Some ws →
  start < n → ∃ e rest, ws = (start, e) :: rest.
Proof.
  destruct fuel as [|fuel]; simpl; [done|].
  intros H Hlt. destruct (start <? n) eqn:E; [|lia].
  destruct (window_end n max_chars start =? n).
  - injection H as <-. by eexists _, _.
  - destruct (split_windows fuel _ _ _ _); simpl in H; [|done].
    injection H as <-. by eexists _, _.
Qed.

Lemma split_windows_steps fuel n max_chars overlap start ws :
  0 ≤ overlap < max_chars → 0 ≤ start →
  split_windows fuel n max_chars overlap start = Some ws →
  (∀ (j : nat) w w', ws !! j = Some w → ws !! S j = Some w' →
     w.2 = w.1 + max_chars ∧ w'.1 = w.2 - overlap)
  ∧ (∀ w, last ws = Some w → w.2 = n).
Proof.
  intros Hov. revert start ws. induction fuel as [|fuel IH];
    intros start ws H0; simpl; [done|].
  destruct (start <? n) eqn:Hlt; [|by intros [= <-]].
  apply Z.ltb_lt in Hlt.
  destruct (window_end n max_chars start =? n) eqn:E.
  - intros [= <-]. apply Z.eqb_eq in E. split.
    + by intros [|j] w w' Hw Hw'.
    + by intros w [= <-].
  - apply Z.eqb_neq in E.
    destruct (split_windows fuel _ _ _ _) as [ws'|] eqn:E'; simpl; [|done].
    intros [= <-].
    assert (Hns : next_start n max_chars overlap start
                  = start + max_chars - overlap)
      by (unfold next_start, window_end in *; lia).
    assert (Hwe : window_end n max_chars start = start + max_chars)
      by (unfold window_end in *; lia).
    destruct (IH (next_start n max_chars overlap start) ws') as [Hst L];
      [lia | done |].
    destruct (split_windows_head _ _ _ _ _ _ E') as [e [rest ->]];
      [unfold window_end in *; lia|].
    split.
    + intros [|j] w w' Hw Hw'.
      * injection Hw as <-. injection Hw' as <-. simpl. lia.
      * simpl in Hw, Hw'. by eapply Hst.
    + intros w Hl. apply L. by rewrite last_cons_cons in Hl.
Qed.

(** X6. On a text longer than [max_chars], with
    [0 <= overlap < max_chars], the chunks are the trimmed windows of a
    sliding scan: the first window starts at 0, every window but the last
    is [max_chars] wide, each next window starts [overlap] characters
    before the end of the previous one, and the last window ends at the
    end of the text. *)
Theorem split_text_windows text max_chars overlap :
  max_chars < len text → 0 ≤ overlap < max_chars →
  ∃ ws e rest,
    split_text text max_chars overlap = Some (window_chunks text ws)
    ∧ ws = (0, e) :: rest
    ∧ (∀ (j : nat) w w', ws !! j = Some w → ws !! S j = Some w' →
         w.2 = w.1 + max_chars ∧ w'.1 = w.2 - overlap)
    ∧ (∀ w, last ws = Some w → w.2 = len text).
Proof.
  intros Hlen Hov.
  destruct (split_windows_some (S (length text)) (len text) max_chars overlap 0)
    as [ws Hws]; [lia | done | unfold len; lia |].
  destruct (split_windows_head _ _ _ _ _ _ Hws) as [e [rest Hhd]];
    [unfold len in *; lia|].
  destruct (split_windows_steps _ _ _ _ _ _ Hov (Z.le_refl 0) Hws) as [Hst L].
  exists ws, e, rest. split; [|done].
  unfold split_text, split_text_fuel.
  destruct (len text <=? max_chars) eqn:E; [lia|].
  by rewrite split_loop_windows, Hws.
Qed.

Lemma split_text_windows_witness :
  (10 < len (lit "abcdefghijklmno") ∧ 0 ≤ 3 < 10)
  ∧ ∃ ws, split_text (lit "abcdefghijklmno") 10 3
          = Some (window_chunks (lit "abcdefghijklmno") ws).
Proof.
  assert (H1 : 10 < len (lit "abcdefghijklmno")) by (vm_compute; reflexivity).
  assert (H2 : 0 ≤ 3 < 10) by lia.
  split; [done|].
  destruct (split_text_windows _ _ _ H1 H2) as [ws [e [rest [H _]]]].
  by exists ws.
Defined.

(** X7. [split_text] returns exactly when the text fits in one chunk, or
    is empty, or [overlap < max_chars]; in every other case the loop goes
    round for ever. *)
Theorem split_text_returns_iff text max_chars overlap :
  (∃ fuel chunks, split_text_fuel fuel text max_chars overlap = Some chunks)
  ↔ (len text ≤ max_chars ∨ text = [] ∨ overlap < max_chars).
Proof.
  split.
  - intros [fuel [chunks H]].
    destruct (Z.le_gt_cases (len text) max_chars) as [|Hgt]; [by left|].
    destruct text as [|c r]; [by right; left|].
    destruct (Z.le_gt_cases max_chars overlap) as [Hov|]; [|by right; right].
    rewrite split_text_diverges in H; [done|lia| |done].
    unfold len. simpl. lia.
  - intros [H|[->|H]].
    + exists 0%nat, [text]. unfold split_text_fuel.
      by destruct (len text <=? max_chars) eqn:E; [|lia].
    + unfold split_text_fuel. change (len []) with 0.
      destruct (0 <=? max_chars) eqn:E.
      * by exists 0%nat, [[]].
      * by exists 1%nat, [].
    + destruct (split_text_fuel_some text max_chars overlap H) as [cs Hcs].
      exists (S (length text)), cs. apply Hcs. lia.
Qed.

End ChunkerMore.

(** ** More about the sectionizer *)

Section SectionizerMore.

Local Open Scope Z_scope.

(** Induction on document trees. *)
Lemma dom_rect_children (P : dom → Prop) :
  (∀ s, P (Text s)) →
  (∀ nm cs, Forall P cs → P (Elem nm cs)) →
  ∀ d, P d.
Proof.
  intros HT HE. fix IH 1. intros [s|nm cs]; [apply HT|].
  apply HE. induction cs as [|c cs IHcs]; constructor; [apply IH | exact IHcs].
Qed.

Lemma elem_of_flat_map {A B} (f : A → list B) (l : list A) (y : B) :
  y ∈ flat_map f l ↔ ∃ x, x ∈ l ∧ y ∈ f x.
Proof.
  rewrite list_elem_of_In, in_flat_map. split.
  - intros [x [H1 H2]]. exists x. by rewrite !list_elem_of_In.
  - intros [x [H1 H2]]. exists x. by rewrite <- !list_elem_of_In.
Qed.

Lemma decompose_clean names d :
  ∀ e, e ∈ decompose names d →
       matches names e = false
       ∧ ∀ x, x ∈ descendants e → matches names x = false.
Proof.
  induction d as [s|nm cs IH] using dom_rect_children; intros e; simpl.
  - intros ->%list_elem_of_singleton. split; [done|].
    simpl. by intros x ?%elem_of_nil.
  - destruct (bool_decide (lower nm ∈ names)) eqn:E;
      [by intros ?%elem_of_nil|].
    intros ->%list_elem_of_singleton. split; [exact E|].
    simpl. intros x [c [Hc Hx]]%elem_of_flat_map.
    apply elem_of_flat_map in Hc as [d [Hd Hc]].
    rewrite Forall_forall in IH. destruct (IH d Hd c Hc) as [H1 H2].
    apply elem_of_cons in Hx as [->|Hx]; [done | by apply H2].
Qed.

Lemma filter_none {A} (P : A → Prop) `{∀ x, Decision (P x)} (l : list A) :
  Forall (λ x, ¬ P x) l → filter P l = [].
Proof.
  induction 1 as [|x l Hx _ IH]; [done|].
  by rewrite filter_cons_False.
Qed.

(** X8. After the clean-up pass no [script], [style], [noscript] or
    [svg] element is left anywhere in the tree (whatever the list of
    names given to the pass): selecting them again finds nothing. *)
Theorem decompose_below_removes_all (names : list str) (soup : dom) :
  select names (decompose_below names soup) = [].
Proof.
  unfold select. destruct soup as [s|nm cs]; simpl; [done|].
  apply filter_none, Forall_forall.
  intros x [c [Hc Hx]]%elem_of_flat_map.
  apply elem_of_flat_map in Hc as [d [Hd Hc]].
  destruct (decompose_clean names d c Hc) as [H1 H2].
  apply elem_of_cons in Hx as [->|Hx]; [by rewrite H1 | by rewrite H2].
Qed.

Lemma foldl_invariant {A B} (P : A → Prop) (f : A → B → A) (l : list B) a :
  P a → (∀ a x, x ∈ l → P a → P (f a x)) → P (foldl f a l).
Proof.
  revert a. induction l as [|x l IH]; intros a Ha Hf; simpl; [done|].
  apply IH.
  - apply Hf; [by left | done].
  - intros a' y Hy. apply Hf. by right.
Qed.

Lemma flush_sections_well_formed st :
  Forall well_formed_section (sections st) →
  Forall well_formed_section (sections (flush st)).
Proof.
  intros H. unfold flush. simpl.
  destruct (_clean_text (join [newline] (current_lines st))) as [|c r] eqn:E;
    simpl; [done|].
  apply Forall_app. split; [done|]. constructor; [|constructor].
  split; simpl; [done|]. rewrite <- E. apply clean_text_fixed.
Qed.

Lemma visit_sections_well_formed st el :
  Forall well_formed_section (sections st) →
  Forall well_formed_section (sections (visit st el)).
Proof.
  intros H. unfold visit.
  destruct (startswith _ _).
  { destruct (negb _); [by apply flush_sections_well_formed|].
    simpl. by apply (flush_sections_well_formed st). }
  repeat (match goal with
          | |- context [if ?b then _ else _] => destruct b
          end; try done).
Qed.

Lemma sections_of_soup_well_formed (parsed : dom) :
  Forall well_formed_section (sections_of_soup parsed).
Proof.
  unfold sections_of_soup.
  set (root := content_root _).
  set (st := foldl visit initial_state (select block_tags root)).
  assert (Hst : Forall well_formed_section (sections (flush st))).
  { apply flush_sections_well_formed. unfold st.
    apply (foldl_invariant (λ st, Forall well_formed_section (sections st)));
      [constructor|].
    intros a x _. apply visit_sections_well_formed. }
  destruct (sections (flush st)) as [|s0 secs]; [|done].
  destruct (_clean_text (get_text [newline] root)) as [|c r] eqn:E; simpl;
    [constructor|].
  constructor; [|constructor]. split; simpl; [done|].
  rewrite <- E. apply clean_text_fixed.
Qed.

Lemma spaced_only_spaces s :
  spaced s → Forall (λ c, isspace c = true → c = space) s.
Proof.
  induction s as [|c r IH]; simpl; [constructor|].
  intros [Hc Hr]. constructor; [|by apply IH].
  intros H. by destruct (Hc H).
Qed.

(** X9. Every section [html_to_sections] returns has a text that is not
    empty and is in normal form, the fallback section included: the text
    starts and ends with a character that is not whitespace, and its only
    whitespace characters are single spaces, so that no line break of the
    page (not even one inside [pre] or [code]) is left in it. *)
Theorem sections_well_formed (parse : str → dom) (html : str) :
  Forall (λ sec, well_formed_section sec
                 ∧ starts_clean (text sec)
                 ∧ starts_clean (rev (text sec))
                 ∧ Forall (λ c, isspace c = true → c = space) (text sec))
    (html_to_sections parse html).
Proof.
  unfold html_to_sections.
  eapply Forall_impl; [apply sections_of_soup_well_formed|].
  intros sec [Hne Hc]. split; [done|]. rewrite <- Hc.
  split; [apply strip_starts_clean|]. split; [apply strip_ends_clean|].
  apply spaced_only_spaces, spaced_strip, (re_sub_spaces_spaced false).
Qed.

Lemma drop_while_head {A} (p : A → bool) (l : list A) x :
  head (drop_while p l) = Some x → p x = false.
Proof.
  induction l as [|y l IH]; simpl; [done|].
  destruct (p y) eqn:E; [done|]. simpl. by intros [= <-].
Qed.

Lemma drop_while_end_split {A} (p : A → bool) (l : list A) :
  ∃ suf, l = drop_while_end p l ++ suf ∧ forallb p suf = true.
Proof.
  unfold drop_while_end.
  destruct (drop_while_split p (rev l)) as [pre [E F]].
  exists (rev pre). split.
  - rewrite <- rev_app_distr, <- E. by rewrite rev_involutive.
  - rewrite forallb_forall in *. intros x Hx. apply F. by apply in_rev.
Qed.

Lemma drop_while_end_last {A} (p : A → bool) (l : list A) x :
  last (drop_while_end p l) = Some x → p x = false.
Proof.
  unfold drop_while_end. intros H. apply (drop_while_head p (rev l)).
  destruct (drop_while p (rev l)) as [|y m]; [done|].
  simpl in H. rewrite last_snoc in H. by simpl.
Qed.

Lemma nested_app a b :
  nested (a ++ b)
  ↔ nested a ∧ nested b ∧ Forall (λ x, Forall (λ y, x.1 < y.1) b) a.
Proof.
  induction a as [|x a IH]; simpl.
  - split; [by intros H; repeat split | by intros [_ [H _]]].
  - rewrite IH, Forall_app, Forall_cons. tauto.
Qed.

Lemma filter_all {A} (P : A → Prop) `{∀ x, Decision (P x)} (l : list A) :
  Forall P l → filter P l = l.
Proof.
  induction 1 as [|x l Hx _ IH]; [done|].
  by rewrite filter_cons_True, IH.
Qed.

(** On a nested stack, popping from the end while the level is at least
    [L] leaves exactly the entries of level below [L]. *)
Lemma pop_levels (stack : list (Z * str)) (L : Z) :
  nested stack →
  drop_while_end (λ e, L <=? e.1) stack = filter (λ e, e.1 < L) stack
  ∧ Forall (λ e, e.1 < L) (drop_while_end (λ e, L <=? e.1) stack).
Proof.
  intros Hn.
  destruct (drop_while_end_split (λ e, L <=? e.1) stack) as [suf [E F]].
  pose proof (drop_while_end_last (λ e, L <=? e.1) stack) as Hl.
  set (P := drop_while_end _ stack) in *.
  assert (HP : Forall (λ e, e.1 < L) P).
  { rewrite E in Hn. apply nested_app in Hn as [HnP _].
    destruct P as [|x P' _] using rev_ind; [constructor|].
    specialize (Hl x (last_snoc _ _)). simpl in Hl.
    apply nested_app in HnP as [_ [_ Hlt]].
    apply Forall_app. split; [|constructor; [lia|constructor]].
    eapply Forall_impl; [exact Hlt|]. simpl.
    intros e He. apply Forall_cons in He as [He _]. lia. }
  split; [|done].
  rewrite E at 1. rewrite filter_app, filter_all by done.
  rewrite filter_none, app_nil_r; [done|].
  apply Forall_forall. intros e He%list_elem_of_In.
  rewrite forallb_forall in F. specialize (F e He). simpl in F. lia.
Qed.

Lemma nested_bound (stack : list (Z * str)) lo hi :
  nested stack → Forall (λ e, lo ≤ e.1 ≤ hi) stack →
  len stack ≤ Z.max 0 (hi - lo + 1).
Proof.
  unfold len. revert lo. induction stack as [|e r IH]; intros lo; simpl.
  - lia.
  - intros [Hlt Hn] [He Hr]%Forall_cons.
    assert (Forall (λ e', e.1 + 1 ≤ e'.1 ≤ hi) r).
    { rewrite Forall_forall in *. intros x Hx.
      specialize (Hlt x Hx). specialize (Hr x Hx). simpl in *. lia. }
    specialize (IH (e.1 + 1) Hn H). lia.
Qed.

Lemma stack_ok_path stack : stack_ok stack → path_ok (stack.*2).
Proof.
  intros [Hn Hf]. split.
  - rewrite length_fmap.
    pose proof (nested_bound stack 1 6 Hn) as B. unfold len in B.
    assert (Forall (λ e, 1 ≤ e.1 ≤ 6) stack)
      by (eapply Forall_impl; [exact Hf | by intros e [? _]]).
    specialize (B H). lia.
  - apply Forall_fmap. eapply Forall_impl; [exact Hf | by intros e [_ ?]].
Qed.

Lemma visit_heading_stack root st el :
  el ∈ select block_tags root →
  startswith (lit "h") (lower (node_name el)) = true →
  nested (heading_stack st) →
  _clean_text (get_text [space] el) ≠ [] →
  let L := int_of_digit (lower (node_name el) !!! 1%nat) in
  let title := _clean_text (get_text [space] el) in
  1 ≤ L ≤ 6
  ∧ heading_stack (visit st el)
    = filter (λ e, e.1 < L) (heading_stack st) ++ [(L, title)]
  ∧ current_path (visit st el) = (heading_stack (visit st el)).*2
  ∧ nested (heading_stack (visit st el))
  ∧ sections (visit st el) = sections (flush st)
  ∧ current_lines (visit st el) = [].
Proof.
  intros Hin Hh Hn Ht L title.
  destruct (select_heading_level root el Hin Hh) as [_ HL].
  destruct (pop_levels (heading_stack st) L Hn) as [Hpop Hlt].
  split; [exact HL|]. unfold visit. rewrite Hh.
  fold title. fold L. destruct title as [|c r] eqn:E; [done|]. simpl.
  fold L. rewrite Hpop. split; [done|]. split; [done|]. split; [|done].
  apply nested_app. rewrite <- Hpop. split; [|split].
  - destruct (drop_while_end_split (λ e, L <=? e.1) (heading_stack st))
      as [suf [Es _]].
    rewrite Es in Hn. by apply nested_app in Hn as [? _].
  - simpl. split; [constructor|done].
  - eapply Forall_impl; [exact Hlt|]. intros e He.
    constructor; [exact He|constructor].
Qed.

(** X10. A heading of level [L] with a title closes every open heading of
    level [L] or deeper and opens itself: on a nested stack, the entries
    of level below [L] stay, the heading becomes the innermost entry, the
    stack stays nested, and the heading path is the list of titles of
    the stack. *)
Theorem visit_heading_pushes root st el :
  el ∈ select block_tags root →
  startswith (lit "h") (lower (node_name el)) = true →
  nested (heading_stack st) →
  _clean_text (get_text [space] el) ≠ [] →
  1 ≤ int_of_digit (lower (node_name el) !!! 1%nat) ≤ 6
  ∧ heading_stack (visit st el)
    = filter (λ e, e.1 < int_of_digit (lower (node_name el) !!! 1%nat))
        (heading_stack st)
      ++ [(int_of_digit (lower (node_name el) !!! 1%nat),
           _clean_text (get_text [space] el))]
  ∧ current_path (visit st el) = (heading_stack (visit st el)).*2
  ∧ nested (heading_stack (visit st el)).
Proof.
  intros Hin Hh Hn Ht.
  destruct (visit_heading_stack root st el Hin Hh Hn Ht)
    as [H1 [H2 [H3 [H4 _]]]].
  done.
Qed.

Lemma visit_heading_pushes_witness :
  (heading_d ∈ select block_tags body_with_heading_d
   ∧ startswith (lit "h") (lower (node_name heading_d)) = true
   ∧ nested (heading_stack three_deep)
   ∧ _clean_text (get_text [space] heading_d) ≠ [])
  ∧ heading_stack (visit three_deep heading_d)
    = [(1, lit "A"); (2, lit "D")].
Proof.
  assert (H1 : heading_d ∈ select block_tags body_with_heading_d)
    by (vm_compute; left).
  assert (H2 : startswith (lit "h") (lower (node_name heading_d)) = true)
    by reflexivity.
  assert (H3 : nested (heading_stack three_deep)).
  { simpl. repeat split; repeat constructor. }
  assert (H4 : _clean_text (get_text [space] heading_d) ≠ [])
    by (vm_compute; discriminate).
  split; [done|].
  destruct (visit_heading_pushes _ _ _ H1 H2 H3 H4) as [_ [H _]].
  rewrite H. reflexivity.
Defined.

Lemma flush_keeps_paths st :
  stack_ok (heading_stack st) →
  current_path st = (heading_stack st).*2 →
  Forall (λ sec, path_ok (heading_path sec)) (sections st) →
  Forall (λ sec, path_ok (heading_path sec)) (sections (flush st)).
Proof.
  intros Hs Hp Hsec. unfold flush. simpl.
  destruct (nonempty _); [|done].
  apply Forall_app. split; [done|]. constructor; [|constructor]. simpl.
  rewrite Hp. by apply stack_ok_path.
Qed.

Lemma visit_keeps_paths root st el :
  el ∈ select block_tags root →
  stack_ok (heading_stack st)
  ∧ current_path st = (heading_stack st).*2
  ∧ Forall (λ sec, path_ok (heading_path sec)) (sections st) →
  stack_ok (heading_stack (visit st el))
  ∧ current_path (visit st el) = (heading_stack (visit st el)).*2
  ∧ Forall (λ sec, path_ok (heading_path sec)) (sections (visit st el)).
Proof.
  intros Hin [Hs [Hp Hsec]].
  destruct (startswith (lit "h") (lower (node_name el))) eqn:Hh.
  - destruct (_clean_text (get_text [space] el)) as [|c r] eqn:Ht.
    + unfold visit. rewrite Hh, Ht. simpl.
      split; [done|]. split; [done|]. by apply flush_keeps_paths.
    + assert (Hne : _clean_text (get_text [space] el) ≠ [])
        by (by rewrite Ht).
      destruct (visit_heading_stack root st el Hin Hh (proj1 Hs) Hne)
        as [HL [Hst [Hcp [Hnest [Hsecs _]]]]].
      split; [|split; [done|]].
      * split; [done|]. rewrite Hst. apply Forall_app. split.
        -- destruct Hs as [_ Hf]. rewrite Forall_forall in *.
           intros e [_ He]%list_elem_of_filter. by apply Hf.
        -- constructor; [|constructor]. simpl. split; [done|].
           split; [done|]. apply clean_text_fixed.
      * rewrite Hsecs. by apply flush_keeps_paths.
  - unfold visit. rewrite Hh.
    repeat (match goal with
            | |- context [if ?b then _ else _] => destruct b
            end; try done).
Qed.

(** X11. In every section [html_to_sections] returns, the heading path
    has at most six titles, none of them empty, each in normal form. *)
Theorem sections_heading_paths (parsed : dom) :
  Forall (λ sec, path_ok (heading_path sec)) (sections_of_soup parsed).
Proof.
  unfold sections_of_soup.
  set (root := content_root _).
  set (st := foldl visit initial_state (select block_tags root)).
  assert (Hst : stack_ok (heading_stack st)
                ∧ current_path st = (heading_stack st).*2
                ∧ Forall (λ sec, path_ok (heading_path sec)) (sections st)).
  { unfold st. apply (foldl_invariant
      (λ st, stack_ok (heading_stack st)
             ∧ current_path st = (heading_stack st).*2
             ∧ Forall (λ sec, path_ok (heading_path sec)) (sections st))).
    - simpl. repeat split; constructor.
    - intros a x Hx. by apply (visit_keeps_paths root). }
  destruct Hst as [Hs [Hp Hsec]].
  pose proof (flush_keeps_paths st Hs Hp Hsec) as Hf.
  destruct (sections (flush st)) as [|s0 secs]; [|done].
  destruct (nonempty _); constructor; [|constructor].
  simpl. split; [simpl; lia | constructor].
Qed.

(** X12. An element that is not a heading never emits a section and
    never touches the heading stack or the heading path: it adds at most
    one line to the lines collected. *)
Theorem visit_block_element st el :
  startswith (lit "h") (lower (node_name el)) = false →
  sections (visit st el) = sections st
  ∧ heading_stack (visit st el) = heading_stack st
  ∧ current_path (visit st el) = current_path st
  ∧ (current_lines (visit st el) = current_lines st
     ∨ ∃ line, line ≠ []
               ∧ current_lines (visit st el) = current_lines st ++ [line]).
Proof.
  intros Hh. unfold visit. rewrite Hh.
  repeat (match goal with
          | |- context [if ?b then _ else _] => destruct b eqn:?
          end);
    simpl; repeat split; try (by left); right; eexists; (split; [|done]).
  - by destruct (_clean_text _).
  - by destruct (get_text _ _).
  - by destruct (_clean_text _).
  - by destruct (_clean_text _).
Qed.

Lemma visit_block_element_witness :
  startswith (lit "h") (lower (node_name paragraph_x)) = false
  ∧ current_lines (visit three_deep paragraph_x) = [lit "x"]
  ∧ sections (visit three_deep paragraph_x) = [].
Proof.
  assert (H : startswith (lit "h") (lower (node_name paragraph_x)) = false)
    by reflexivity.
  split; [exact H|].
  destruct (visit_block_element three_deep paragraph_x H) as [H1 _].
  split; [reflexivity | exact H1].
Defined.

Lemma descendants_strings root d s :
  d ∈ descendants root → s ∈ all_strings d → s ∈ all_strings root.
Proof.
  revert d s. induction root as [t|nm cs IH] using dom_rect_children;
    intros d s; simpl; [by intros ?%elem_of_nil|].
  intros [c [Hc Hd]]%elem_of_flat_map Hs.
  apply elem_of_flat_map. exists c. split; [done|].
  apply elem_of_cons in Hd as [->|Hd]; [done|].
  rewrite Forall_forall in IH. by apply (IH c Hc d).
Qed.

Lemma blank_nil t : letters t = [] → starts_clean t → t = [].
Proof.
  destruct t as [|c r]; [done|]. simpl. intros H Hc.
  unfold letters in H. by rewrite filter_cons_True in H.
Qed.

Lemma clean_text_nil_letters s : _clean_text s = [] → letters s = [].
Proof.
  unfold _clean_text. intros H.
  by rewrite <- (re_sub_spaces_letters false), <- strip_letters, H.
Qed.

Lemma get_text_nil sep el :
  (∀ s, s ∈ all_strings el → strip s = []) → get_text sep el = [].
Proof.
  intros H. unfold get_text. rewrite filter_none; [done|].
  apply Forall_forall. intros x [s [-> Hs]]%list_elem_of_fmap.
  by rewrite (H s Hs).
Qed.

Lemma join_head sep x rest : ∃ tail, join sep (x :: rest) = x ++ tail.
Proof.
  destruct rest as [|y rest]; simpl; [exists []; by rewrite app_nil_r|].
  by eexists.
Qed.

Lemma get_text_blank sep el :
  _clean_text (get_text sep el) = [] →
  ∀ s, s ∈ all_strings el → strip s = [].
Proof.
  intros H%clean_text_nil_letters s Hs. unfold get_text in H.
  destruct (strip s) as [|c r] eqn:E; [done|]. exfalso.
  assert (Hin : strip s ∈ filter (λ s, nonempty s = true)
                           (strip <$> all_strings el)).
  { apply list_elem_of_filter. split; [by rewrite E|].
    apply list_elem_of_fmap. by exists s. }
  destruct (filter _ _) as [|x rest] eqn:F; [by apply elem_of_nil in Hin|].
  assert (Hx : x ∈ filter (λ s, nonempty s = true)
                      (strip <$> all_strings el)) by (rewrite F; by left).
  apply list_elem_of_filter in Hx as [Hne [s' [-> _]]%list_elem_of_fmap].
  destruct (join_head sep (strip s') rest) as [tail Ej].
  rewrite Ej, letters_app in H.
  pose proof (strip_starts_clean s') as Hc.
  destruct (strip s') as [|c' r']; [done|]. simpl in Hc.
  unfold letters in H. by rewrite filter_cons_True in H.
Qed.

Lemma visit_blank st el :
  get_text [space] el = [] → get_text [newline] el = [] →
  sections st = [] → current_lines st = [] →
  sections (visit st el) = [] ∧ current_lines (visit st el) = [].
Proof.
  intros H1 H2 Hs Hl. unfold visit. rewrite H1, H2.
  change (_clean_text []) with (@nil N). simpl.
  destruct (startswith _ _).
  - unfold flush. rewrite Hl. simpl. by rewrite Hs.
  - repeat (match goal with
            | |- context [if ?b then _ else _] => destruct b
            end; try done).
Qed.

(** X13. [html_to_sections] returns no section at all exactly when the
    content root holds no text but whitespace; a page with any text in
    its content root yields at least one section. *)
Theorem sections_empty_iff (parsed : dom) :
  sections_of_soup parsed = []
  ↔ _clean_text (get_text [newline]
       (content_root (decompose_below removed_tags parsed))) = [].
Proof.
  unfold sections_of_soup.
  set (root := content_root _).
  set (st := foldl visit initial_state (select block_tags root)).
  split.
  - destruct (sections (flush st)); [|done].
    by destruct (_clean_text (get_text [newline] root)).
  - intros H.
    assert (Hst : sections st = [] ∧ current_lines st = []).
    { unfold st. apply (foldl_invariant
        (λ st, sections st = [] ∧ current_lines st = [])); [done|].
      intros a x Hx [Ha1 Ha2].
      assert (Hb : ∀ s, s ∈ all_strings x → strip s = []).
      { intros s Hs. apply (get_text_blank [newline] root H).
        apply (descendants_strings root x); [|done].
        unfold select in Hx. by apply list_elem_of_filter in Hx as [_ ?]. }
      apply visit_blank; [by apply get_text_nil.. | done | done]. }
    destruct Hst as [Hs Hl]. unfold flush. rewrite Hl, Hs. simpl.
    by rewrite H.
Qed.

End SectionizerMore.

(** ** More about ingestion *)

Section IngestionMore.

Local Open Scope Z_scope.

Variable parse : str → dom.
Variable encode_utf8 : str → list N.
Variable sha1_hexdigest : list N → str.

Abbreviation kb_add_html'' := (kb_add_html parse encode_utf8 sha1_hexdigest).
Abbreviation docs_from'' := (docs_from encode_utf8 sha1_hexdigest).

(** X14. Both add tools only append to the index and write everything
    through: the documents held before the call are still there, in
    order, followed by the new ones; after the call the persisted
    documents are all the documents of the index.  [kb_add_text] adds
    exactly one document, and the [chunks] count [kb_add_html] returns is
    the number of documents it added. *)
Theorem add_tools_append_and_persist :
  (∀ source_id text extra w,
     let r := kb_add_text source_id text extra w in
     inserted r.2 = inserted w ++ new_docs w r.2
     ∧ length (new_docs w r.2) = 1%nat
     ∧ persisted r.2 = inserted r.2
     ∧ r.1 = {[ lit "ok" := VBool true;
                lit "source_id" := VStr source_id ]})
  ∧ (∀ url html pt extra w,
       let r := kb_add_html'' url html pt extra w in
       inserted r.2 = inserted w ++ new_docs w r.2
       ∧ persisted r.2 = inserted r.2
       ∧ r.1 = {[ lit "ok" := VBool true; lit "url" := VStr url;
                  lit "chunks" := VInt (len (new_docs w r.2)) ]}).
Proof.
  split.
  - intros source_id text extra w. cbv zeta.
    rewrite kb_add_text_new_docs. unfold kb_add_text, bind. simpl. done.
  - intros url html pt extra w. cbv zeta.
    rewrite kb_add_html_new_docs, kb_add_html_run. simpl.
    unfold len. by rewrite docs_from_length.
Qed.

Lemma well_formed_first sec :
  well_formed_section sec →
  ∃ c r, text sec = c :: r ∧ isspace c = false.
Proof.
  intros [Hne Hc]. pose proof (strip_starts_clean
    (re_sub_spaces false (text sec))) as Hs.
  fold (_clean_text (text sec)) in Hs. rewrite Hc in Hs.
  destruct (text sec) as [|c r]; [done|]. by exists c, r.
Qed.

(** The chunks of a section text with the default parameters. *)
Lemma split_text_default_chunks t :
  t ≠ [] → starts_clean t →
  split_text_default t ≠ []
  ∧ Forall (λ chunk, chunk ≠ [] ∧ (length chunk ≤ 2000)%nat
                     ∧ occurs_in chunk t) (split_text_default t).
Proof.
  intros Hne Hc. pose proof (split_text_default_some t) as H.
  destruct (split_text_fuel_windows _ _ _ _ _ H)
    as [[Hle E]|[Hgt [ws [Hws E]]]]; rewrite E.
  - split; [done|]. constructor; [|constructor].
    split; [done|]. split; [unfold len in Hle; lia|].
    exists [], []. by rewrite app_nil_r.
  - destruct t as [|c r]; [done|]. simpl in Hc.
    assert (Hov : 0 ≤ 200 < 2000) by lia.
    assert (Hm : 0 ≤ 2000) by lia.
    destruct (split_windows_cover _ _ _ _ _ _ Hov (Z.le_refl 0) Hws)
      as [F C].
    pose proof (split_windows_bounds _ _ _ _ _ _ Hm (Z.le_refl 0) Hws) as B.
    rewrite Forall_forall in F, B. split.
    + destruct (C 0) as [w [Hw Hiw]]; [unfold len; simpl; lia|].
      destruct (F w Hw) as [B1 B2].
      pose proof (strip_covers (c :: r) w.1 w.2 0%nat c B1 B2 Hiw
                    eq_refl Hc) as [o [_ Ho]].
      intros Hnil.
      assert (Hin : strip (slice (c :: r) w.1 w.2)
                    ∈ window_chunks (c :: r) ws).
      { apply window_chunks_elem; [done|]. intros Hz.
        rewrite Hz in Ho. simpl in Ho. lia. }
      rewrite Hnil in Hin. by apply elem_of_nil in Hin.
    + apply window_chunks_Forall. intros w Hw Hnz. split; [done|].
      destruct (B w Hw) as [B1 [B2 B3]]. split.
      * pose proof (strip_length (slice (c :: r) w.1 w.2)).
        pose proof (slice_length_inside (c :: r) w.1 w.2 B1 B2).
        unfold len in *. lia.
      * eapply occurs_in_trans; [apply strip_occurs | apply slice_occurs].
Qed.

Lemma imap_snd {A} (g : nat → nat) (l : list A) :
  (λ ic, ic.2) <$> imap (λ i x, (g i, x)) l = l.
Proof.
  revert g. induction l as [|x l IH]; intros g; simpl; [done|].
  f_equal. apply (IH (g ∘ S)).
Qed.

Lemma docs_from_texts url pt extra clock t us :
  doc_text <$> docs_from'' url pt extra clock t us = (λ u, u.2) <$> us.
Proof.
  revert t. induction us as [|u us IH]; intros t; simpl; [done|].
  by rewrite IH.
Qed.

(** The documents of a list of sections, one group per section. *)
Lemma docs_from_groups url pt extra clock t secs :
  Forall well_formed_section secs →
  ∃ groups : list (list Document),
    docs_from'' url pt extra clock t (units secs) = concat groups
    ∧ Forall2 (λ sec g,
                 g ≠ []
                 ∧ doc_text <$> g = split_text_default (text sec)
                 ∧ Forall (λ d, doc_text d ≠ []
                                ∧ (length (doc_text d) ≤ 2000)%nat
                                ∧ occurs_in (doc_text d) (text sec)) g)
        secs groups.
Proof.
  intros Hwf. revert t. induction Hwf as [|sec secs Hsec _ IH]; intros t.
  - exists []. split; [done|constructor].
  - change (units (sec :: secs))
      with (((λ ic, (heading_path sec, ic.1, ic.2))
               <$> enumerate (split_text_default (text sec)))
            ++ units secs).
    rewrite docs_from_app.
    set (us := (λ ic, (heading_path sec, ic.1, ic.2))
                 <$> enumerate (split_text_default (text sec))).
    destruct (IH (t + length us)%nat) as [groups [Eg Fg]].
    exists (docs_from'' url pt extra clock t us :: groups).
    split; [simpl; by rewrite Eg|]. constructor; [|done].
    assert (Et : doc_text <$> docs_from'' url pt extra clock t us
                 = split_text_default (text sec)).
    { rewrite docs_from_texts. unfold us, enumerate.
      rewrite <- list_fmap_compose.
      apply (imap_snd (λ i, i)). }
    destruct (well_formed_first sec Hsec) as [c [r [E Hsp]]].
    destruct (split_text_default_chunks (text sec)) as [Hne F];
      [by rewrite E | by rewrite E |].
    split; [|split; [done|]].
    + intros Hnil. rewrite Hnil in Et. simpl in Et. by rewrite <- Et in Hne.
    + rewrite <- Et in F. by apply Forall_fmap in F.
Qed.

(** X15. [kb_add_html] stores every section.  The documents it inserts
    are, section after section in the order of [html_to_sections], one
    group of documents per section; the group of a section is not empty
    and holds one document per chunk of the section's text, in order.
    The text of each of these documents is not empty, has at most 2000
    characters, and is a contiguous piece of the text of its section. *)
Theorem kb_add_html_documents url html pt extra w :
  ∃ groups : list (list Document),
    new_docs w (kb_add_html'' url html pt extra w).2 = concat groups
    ∧ Forall2 (λ sec g,
                 g ≠ []
                 ∧ doc_text <$> g = split_text_default (text sec)
                 ∧ Forall (λ d, doc_text d ≠ []
                                ∧ (length (doc_text d) ≤ 2000)%nat
                                ∧ occurs_in (doc_text d) (text sec)) g)
        (html_to_sections parse html) groups.
Proof.
  rewrite kb_add_html_new_docs.
  apply docs_from_groups.
  unfold html_to_sections. apply sections_of_soup_well_formed.
Qed.

Lemma section_ids_of_units url pt extra w html :
  stored_section_id
    <$> new_docs w (kb_add_html'' url html pt extra w).2
  = (λ u, match extra ≫= (.!! lit "section_id") with
          | Some v => Some v
          | None => Some (VStr (section_id encode_utf8 sha1_hexdigest
                                  url u.1.1 u.1.2))
          end) <$> units (html_to_sections parse html).
Proof.
  rewrite kb_add_html_new_docs. apply docs_from_section_ids.
Qed.

(** X16. The stored [section_id] is not a unique key.  Two units of a
    page with the same heading path and the same chunk index (two
    sections under the same headings) are stored with the same
    [section_id]; and the nested headings [a > b] give the same id as
    the single heading ["a / b"]. *)
Theorem section_id_not_unique url html pt extra w (j1 j2 : nat) u1 u2 :
  units (html_to_sections parse html) !! j1 = Some u1 →
  units (html_to_sections parse html) !! j2 = Some u2 →
  u1.1 = u2.1 →
  (stored_section_id
     <$> new_docs w (kb_add_html'' url html pt extra w).2) !! j1
  = (stored_section_id
       <$> new_docs w (kb_add_html'' url html pt extra w).2) !! j2
  ∧ ∀ a b i,
      section_id encode_utf8 sha1_hexdigest url [a; b] i
      = section_id encode_utf8 sha1_hexdigest url [a ++ lit " / " ++ b] i.
Proof.
  intros H1 H2 E. split; [|done].
  rewrite section_ids_of_units, !list_lookup_fmap, H1, H2. simpl.
  by rewrite E.
Qed.

Lemma split_at_separator (z : N) (a a' x x' : list N) :
  z ∉ a → z ∉ a' → a ++ z :: x = a' ++ z :: x' → a = a' ∧ x = x'.
Proof.
  revert a'. induction a as [|c a IH]; intros [|c' a'] Ha Ha'; simpl.
  - by intros [= ->].
  - intros [= <- _]. exfalso. apply Ha'. by left.
  - intros [= -> _]. exfalso. apply Ha. by left.
  - intros [= -> E]. destruct (IH a') as [-> ->]; [| |done|done].
    + intros ?. apply Ha. by right.
    + intros ?. apply Ha'. by right.
Qed.

Lemma hash_input_injective parts parts' :
  (∀ p q, encode_utf8 p = encode_utf8 q → p = q) →
  (∀ p, p ∈ parts ++ parts' → 0%N ∉ encode_utf8 p) →
  hash_input encode_utf8 parts = hash_input encode_utf8 parts' →
  parts = parts'.
Proof.
  intros Hinj. revert parts'.
  induction parts as [|p ps IH]; intros [|p' ps'] Hz; simpl.
  - done.
  - intros E. by destruct (encode_utf8 p').
  - intros E. by destruct (encode_utf8 p).
  - rewrite <- !app_assoc. simpl. intros E.
    apply split_at_separator in E as [Ep Er].
    + apply Hinj in Ep as ->. f_equal. apply IH; [|done].
      intros q Hq. apply Hz. apply elem_of_app in Hq as [Hq|Hq].
      * apply elem_of_app. left. by right.
      * apply elem_of_app. right. by right.
    + apply Hz. by left.
    + apply Hz. apply elem_of_app. right. by left.
Qed.

(** X17. The NUL byte after every part keeps the parts apart: as long as
    no encoded part holds a NUL byte (and the encoding is one-to-one, as
    UTF-8 is), different lists of parts feed different bytes to the hash,
    so that [("a", "bc")] and [("ab", "c")] cannot be confused. *)
Theorem stable_id_framing parts parts' :
  (∀ p q, encode_utf8 p = encode_utf8 q → p = q) →
  (∀ p, p ∈ parts ++ parts' → 0%N ∉ encode_utf8 p) →
  parts ≠ parts' →
  _stable_id encode_utf8 sha1_hexdigest parts
  = sha1_hexdigest (hash_input encode_utf8 parts)
  ∧ _stable_id encode_utf8 sha1_hexdigest parts'
    = sha1_hexdigest (hash_input encode_utf8 parts')
  ∧ hash_input encode_utf8 parts ≠ hash_input encode_utf8 parts'.
Proof.
  intros Hinj Hz Hne. split; [done|]. split; [done|].
  intros E. apply Hne. by apply hash_input_injective.
Qed.

(** X18. A part that holds a NUL character breaks the framing: with an
    encoding that works character by character and encodes NUL as the
    NUL byte (as UTF-8 does), moving a NUL from the end of one part to
    the start of the next gives the same id. *)
Theorem stable_id_nul_collision (a b : str) :
  (∀ x y, encode_utf8 (x ++ y) = encode_utf8 x ++ encode_utf8 y) →
  encode_utf8 [0%N] = [0%N] →
  _stable_id encode_utf8 sha1_hexdigest [a ++ [0%N]; b]
  = _stable_id encode_utf8 sha1_hexdigest [a; 0%N :: b].
Proof.
  intros Happ Hnul. unfold _stable_id. simpl.
  change (0%N :: b) with ([0%N] ++ b).
  rewrite !Happ, Hnul, <- !app_assoc. done.
Qed.

End IngestionMore.

Lemma section_id_not_unique_witness :
  (units (html_to_sections parse_plain (lit "<p>x</p><h1></h1><p>y</p>"))
     !! 0%nat = Some ([], 0%nat, lit "x")
   ∧ units (html_to_sections parse_plain (lit "<p>x</p><h1></h1><p>y</p>"))
       !! 1%nat = Some ([], 0%nat, lit "y"))
  ∧ (stored_section_id
       <$> new_docs empty_world
             (kb_add_html parse_plain ascii_bytes length_digest (lit "u")
                (lit "<p>x</p><h1></h1><p>y</p>") None None empty_world).2)
      !! 0%nat
    = (stored_section_id
         <$> new_docs empty_world
               (kb_add_html parse_plain ascii_bytes length_digest (lit "u")
                  (lit "<p>x</p><h1></h1><p>y</p>") None None empty_world).2)
        !! 1%nat.
Proof.
  assert (H1 : units (html_to_sections parse_plain
                        (lit "<p>x</p><h1></h1><p>y</p>"))
               !! 0%nat = Some ([], 0%nat, lit "x"))
    by (vm_compute; reflexivity).
  assert (H2 : units (html_to_sections parse_plain
                        (lit "<p>x</p><h1></h1><p>y</p>"))
               !! 1%nat = Some ([], 0%nat, lit "y"))
    by (vm_compute; reflexivity).
  split; [done|].
  exact (proj1 (section_id_not_unique parse_plain ascii_bytes length_digest
                  (lit "u") _ None None empty_world 0 1 _ _ H1 H2 eq_refl)).
Defined.

Lemma ascii_bytes_no_nul (parts : list str) :
  Forall (λ p, 0%N ∉ p) parts → ∀ p, p ∈ parts → 0%N ∉ ascii_bytes p.
Proof. intros H p Hp. rewrite Forall_forall in H. by apply H. Qed.

Lemma stable_id_framing_witness :
  [lit "a"; lit "bc"] ≠ [lit "ab"; lit "c"]
  ∧ hash_input ascii_bytes [lit "a"; lit "bc"]
    ≠ hash_input ascii_bytes [lit "ab"; lit "c"].
Proof.
  assert (Hne : [lit "a"; lit "bc"] ≠ [lit "ab"; lit "c"])
    by (vm_compute; discriminate).
  split; [exact Hne|].
  refine (proj2 (proj2 (stable_id_framing ascii_bytes length_digest
                          [lit "a"; lit "bc"] [lit "ab"; lit "c"]
                          (λ p q H, H) _ Hne))).
  apply ascii_bytes_no_nul.
  repeat (constructor;
          [intros H; repeat (apply elem_of_cons in H as [H|H];
                             [discriminate H|]);
           by apply elem_of_nil in H|]).
  constructor.
Defined.

Lemma stable_id_nul_collision_witness :
  _stable_id ascii_bytes length_digest [lit "a" ++ [0%N]; lit "b"]
  = _stable_id ascii_bytes length_digest [lit "a"; 0%N :: lit "b"].
Proof.
  exact (stable_id_nul_collision ascii_bytes length_digest (lit "a") (lit "b")
           (λ x y, eq_refl) eq_refl).
Defined.

(** ** More about search and quote *)

Section FacadeMore.

Local Open Scope Z_scope.

Lemma search_hit_text n :
  ∃ d, search_hit n = VDict d
       ∧ d !! lit "text" = Some (VStr (take 1500 (content (node n))))
       ∧ d !! lit "score" = Some (VFloat (float_or_zero (score n)))
       ∧ d !! lit "node_id" = Some (VStr (node_id (node n))).
Proof.
  unfold search_hit. eexists. split; [done|].
  rewrite (slice_prefix _ 1500) by lia. split; [|split].
  - rewrite !lookup_insert_ne by key_ne. by rewrite lookup_insert_eq.
  - rewrite lookup_insert_ne by key_ne. by rewrite lookup_insert_eq.
  - by rewrite lookup_insert_eq.
Qed.

(** X19. [kb_search] returns one hit per node the retriever gave back, in
    the same order; the text of a hit is the first 1500 characters of the
    node's content, and its score is never a negative zero: a missing or
    zero score is reported as [0.0].  Asking with [top_k] or with its
    clamped value gives the same answer. *)
Theorem kb_search_hits (retrieve : Z → str → list NodeWithScore)
    (query : str) (top_k : Z) :
  let nodes := retrieve (Z.max 1 (Z.min top_k 20)) query in
  kb_search retrieve query top_k !! lit "results"
  = Some (VList (search_hit <$> nodes))
  ∧ Forall (λ n, ∃ d t,
              search_hit n = VDict d
              ∧ d !! lit "text" = Some (VStr t)
              ∧ (length t ≤ 1500)%nat
              ∧ t = take 1500 (content (node n))
              ∧ d !! lit "score" = Some (VFloat (float_or_zero (score n)))
              ∧ float_or_zero (score n) ≠ 2 ^ 63) nodes
  ∧ kb_search retrieve query top_k
    = kb_search retrieve query (Z.max 1 (Z.min top_k 20)).
Proof.
  cbv zeta. split; [|split].
  - unfold kb_search. rewrite lookup_insert_ne by key_ne.
    by rewrite lookup_singleton_eq.
  - apply Forall_forall. intros n _.
    destruct (search_hit_text n) as [d [E [Ht [Hs _]]]].
    exists d, (take 1500 (content (node n))).
    split; [done|]. split; [done|]. split; [rewrite length_take; lia|].
    split; [done|]. split; [done|].
    unfold float_or_zero. destruct (score n) as [bits|]; [|done].
    destruct (bits =? 0) eqn:E0; [done|].
    destruct (bits =? 2 ^ 63) eqn:E1; simpl; [done|].
    by apply Z.eqb_neq in E1.
  - unfold kb_search.
    by replace (Z.max 1 (Z.min (Z.max 1 (Z.min top_k 20)) 20))
      with (Z.max 1 (Z.min top_k 20)) by lia.
Qed.

(** X20. When the lookup returns a node whose content has at most 4000
    characters, [kb_quote] gives the content back in full, unchanged,
    with [ok: True] and the node's metadata (an empty mapping when the
    node has none). *)
Theorem kb_quote_whole_content (get_node : str → outcome Node)
    (id : str) (n : Node) :
  get_node id = Returns n →
  (length (content n) ≤ 4000)%nat →
  kb_quote get_node id
  = Returns {[ lit "ok" := VBool true;
               lit "text" := VStr (content n);
               lit "metadata" := VDict (default ∅ (metadata n)) ]}.
Proof.
  intros Hn Hlen. unfold kb_quote. rewrite Hn. simpl.
  rewrite (slice_prefix _ 4000) by lia. by rewrite take_ge by lia.
Qed.

End FacadeMore.

Lemma kb_quote_whole_content_witness :
  (docstore_get_node sample_store (lit "n1")
   = Returns {| node_id := lit "n1"; content := lit "hello world";
                metadata := Some {[ lit "source_id" := VStr (lit "doc1") ]} |}
   ∧ (length (lit "hello world") ≤ 4000)%nat)
  ∧ kb_quote (docstore_get_node sample_store) (lit "n1")
    = Returns {[ lit "ok" := VBool true;
                 lit "text" := VStr (lit "hello world");
                 lit "metadata" :=
                   VDict {[ lit "source_id" := VStr (lit "doc1") ]} ]}.
Proof.
  assert (H1 : docstore_get_node sample_store (lit "n1")
               = Returns {| node_id := lit "n1"; content := lit "hello world";
                            metadata := Some {[ lit "source_id"
                                                := VStr (lit "doc1") ]} |})
    by (vm_compute; reflexivity).
  assert (H2 : (length (lit "hello world") ≤ 4000)%nat)
    by (vm_compute; lia).
  split; [done|].
  exact (kb_quote_whole_content _ _ _ H1 H2).
Defined.
